(** * fibb::Array_Wrapper<T, N>: a non-owning view over N contiguous elements

  A shallow embedding of the two versions of the class template that the
  repository carries: [array_wrapper.hpp] (module [Hpp]) and the header
  reproduced in [README.md] (module [Readme]).

  - The store is one flat array of cells; a pointer is an index into it.
  - A member function that touches the store is a computation in the monad
    [M]: it returns normally, throws, or has undefined behaviour.
  - The store records every element assignment in a log, so that "no
    element was written" can be stated.
  - The algorithms of <algorithm> used by the class live in module [Std]. *)

From stdpp Require Import base decidable numbers option list strings pretty.

(** ** Element types

  What the class template needs from [T]: [operator==], the four ordering
  operators used by the comparison lambdas, and the state in which a
  move-assignment leaves its source. *)

Class ValueType (T : Type) := {
  value_eq_dec :: EqDecision T;
  value_lt : T → T → bool;
  value_gt : T → T → bool;
  value_le : T → T → bool;
  value_ge : T → T → bool;
  moved_from : T → T
}.

(** [int], the element type of the README's example. *)
#[global] Instance int_value : ValueType Z := {|
  value_lt := Z.ltb;
  value_gt := Z.gtb;
  value_le := Z.leb;
  value_ge := Z.geb;
  moved_from := id
|}.

(** The operators of [T] agree with one strict total order. *)
Class ValueLaws (T : Type) `{ValueType T} := {
  value_lt_irrefl : ∀ a : T, value_lt a a = false;
  value_lt_total : ∀ a b : T, value_lt a b = false → value_lt b a = false → a = b;
  value_lt_asym : ∀ a b : T, value_lt a b = true → value_lt b a = false;
  value_gt_lt : ∀ a b : T, value_gt a b = value_lt b a;
  value_le_lt : ∀ a b : T, value_le a b = negb (value_lt b a);
  value_ge_lt : ∀ a b : T, value_ge a b = negb (value_lt a b)
}.

(** ** The store and the monad of member functions *)

(** An address is an index into the store. *)
Abbreviation addr := nat.

Record state (T : Type) := State {
  cells : list T;              (* the memory, indexed by address *)
  stores : list (addr * T)     (* element assignments performed, newest first *)
}.
Arguments State {T} _ _.
Arguments cells {T} _.
Arguments stores {T} _.

(** [std::out_of_range] is the one exception type the headers name. *)
Inductive exn := out_of_range (what : string).

Inductive outcome (T A : Type) :=
| Ok (a : A) (s : state T)
| Throw (e : exn) (s : state T)
| Undefined.
Arguments Ok {T A} _ _.
Arguments Throw {T A} _ _.
Arguments Undefined {T A}.

Definition M (T A : Type) := state T → outcome T A.

#[global] Instance M_ret {T} : MRet (M T) := λ A a s, Ok a s.
#[global] Instance M_bind {T} : MBind (M T) := λ A B f m s,
match m s with
| Ok a s' => f a s'
| Throw e s' => Throw e s'
| Undefined => Undefined
end.

(** A computation that never throws, whatever the store. *)
Definition no_throw {T A : Type} (m : M T A) : Prop :=
  ∀ s e s', m s ≠ Throw e s'.

(** A computation that returns from [s] having assigned no element: the
    store and its log are as before. *)
Definition skips {T A : Type} (m : M T A) (s : state T) : Prop :=
  ∃ a, m s = Ok a s.

Section Primitives.
Context {T : Type}.

Definition throw {A} (e : exn) : M T A := λ s, Throw e s.
Definition undefined {A} : M T A := λ _, Undefined.

(** [*p] as an rvalue; reading outside the store is undefined. *)
Definition load (p : addr) : M T T := λ s,
  match cells s !! p with
  | Some v => Ok v s
  | None => Undefined
  end.

(** [*p = v]; writing outside the store is undefined. *)
Definition store (p : addr) (v : T) : M T () := λ s,
  if decide (p < length (cells s))
  then Ok () (State (<[p:=v]> (cells s)) ((p, v) :: stores s))
  else Undefined.
End Primitives.

(** ** <algorithm> and <iterator>

  Iterators are raw pointers. A range [first, last) is walked [last - first]
  times; the preconditions of the standard on ranges are checked and their
  violation is undefined behaviour. *)

Module Std.
Section Algorithms.
Context {T : Type} `{!ValueType T}.

(** [std::fill_n(first, n, val)] *)
Fixpoint fill_n (first : addr) (n : nat) (val : T) : M T addr :=
  match n with
  | 0 => mret first
  | S n' => store first val;; fill_n (S first) n' val
  end.

Fixpoint copy_loop (n : nat) (first d_first : addr) : M T addr :=
  match n with
  | 0 => mret d_first
  | S n' =>
      v ← load first;
      store d_first v;;
      copy_loop n' (S first) (S d_first)
  end.

(** [std::copy(first, last, d_first)]; undefined if [d_first] is within
    [first, last). *)
Definition copy (first last d_first : addr) : M T addr :=
  if decide (last < first) then undefined
  else if decide (first ≤ d_first < last) then undefined
  else copy_loop (last - first) first d_first.

(** The assignment [dst[0] = std::move(src[0])] of one element: one element
    assignment, to [dst]; it leaves the source element in its moved-from
    state. Undefined outside the store. *)
Definition move_assign (dst src : addr) : M T () := λ s,
  match cells s !! src with
  | Some v =>
      if decide (dst < length (cells s))
      then Ok () (State (<[src:=moved_from v]> (<[dst:=v]> (cells s)))
                        ((dst, v) :: stores s))
      else Undefined
  | None => Undefined
  end.

Fixpoint move_loop (n : nat) (first d_first : addr) : M T addr :=
  match n with
  | 0 => mret d_first
  | S n' =>
      move_assign d_first first;;
      move_loop n' (S first) (S d_first)
  end.

(** [std::move(first, last, d_first)]; undefined if [d_first] is within
    [first, last). *)
Definition move (first last d_first : addr) : M T addr :=
  if decide (last < first) then undefined
  else if decide (first ≤ d_first < last) then undefined
  else move_loop (last - first) first d_first.

(** [std::iter_swap(a, b)] *)
Definition iter_swap (a b : addr) : M T () :=
  x ← load a;
  y ← load b;
  store a y;;
  store b x.

Fixpoint swap_ranges_loop (n : nat) (first1 first2 : addr) : M T addr :=
  match n with
  | 0 => mret first2
  | S n' => iter_swap first1 first2;; swap_ranges_loop n' (S first1) (S first2)
  end.

(** [std::swap_ranges(first1, last1, first2)]; undefined if the two ranges
    overlap. *)
Definition swap_ranges (first1 last1 first2 : addr) : M T addr :=
  if decide (last1 < first1) then undefined
  else if decide (first1 < first2 + (last1 - first1) ∧ first2 < last1) then undefined
  else swap_ranges_loop (last1 - first1) first1 first2.

Fixpoint equal_loop (n : nat) (first1 first2 : addr) : M T bool :=
  match n with
  | 0 => mret true
  | S n' =>
      x ← load first1;
      y ← load first2;
      if bool_decide (x = y) then equal_loop n' (S first1) (S first2)
      else mret false
  end.

(** [std::equal(first1, last1, first2)] *)
Definition equal (first1 last1 first2 : addr) : M T bool :=
  if decide (last1 < first1) then undefined
  else equal_loop (last1 - first1) first1 first2.

Fixpoint lexicographical_compare_loop (comp : T → T → bool)
    (n1 n2 : nat) (first1 first2 : addr) : M T bool :=
  match n1, n2 with
  | S n1', S n2' =>
      x ← load first1;
      y ← load first2;
      if comp x y then mret true
      else if comp y x then mret false
      else lexicographical_compare_loop comp n1' n2' (S first1) (S first2)
  | 0, S _ => mret true       (* first1 == last1 && first2 != last2 *)
  | _, 0 => mret false
  end.

(** [std::lexicographical_compare(first1, last1, first2, last2, comp)] *)
Definition lexicographical_compare (first1 last1 first2 last2 : addr)
    (comp : T → T → bool) : M T bool :=
  if decide (last1 < first1 ∨ last2 < first2) then undefined
  else lexicographical_compare_loop comp (last1 - first1) (last2 - first2) first1 first2.
End Algorithms.

(** [std::reverse_iterator<T*>]: wraps [current]; dereferencing yields the
    element before it, incrementing moves [current] back. *)
Record reverse_iterator := make_reverse_iterator { current : addr }.

Definition rderef (r : reverse_iterator) : addr := current r - 1.
Definition rnext (r : reverse_iterator) : reverse_iterator :=
  make_reverse_iterator (current r - 1).
Definition req (r1 r2 : reverse_iterator) : bool :=
  bool_decide (current r1 = current r2).

(** The loop [for (it = first; it != last; ++it)] dereferencing [it] in its
    body: the references visited, in order. [None] when the fuel runs out before [it] meets [last]. *)
Fixpoint for_each (fuel : nat) (first last : addr) : option (list addr) :=
  match fuel with
  | 0 => None
  | S fuel' =>
      if bool_decide (first = last) then Some []
      else (first ::.) <$> for_each fuel' (S first) last
  end.

Fixpoint rfor_each (fuel : nat) (first last : reverse_iterator) : option (list addr) :=
  match fuel with
  | 0 => None
  | S fuel' =>
      if req first last then Some []
      else (rderef first ::.) <$> rfor_each fuel' (rnext first) last
  end.
End Std.

(** ** The class template

  [Array_Wrapper<T, N>] has one data member, the pointer [m_array]; [N] is a
  template parameter and is not stored. *)

Record Array_Wrapper (T : Type) (N : nat) := make_wrapper { m_array : addr }.
Arguments make_wrapper {T N} _.
Arguments m_array {T N} _.

(** A [std::array<T, N>] object in the store, known by the address [data()]
  of its first element. *)
Record std_array (T : Type) (N : nat) := make_array { data : addr }.
Arguments make_array {T N} _.
Arguments data {T N} _.

(** The [n] cells starting at [first]. *)
Definition window {T : Type} (first n : nat) (l : list T) : list T :=
  take n (drop first l).

Section Views.
Context {T : Type} {N : nat}.

(** The N slots a view refers to lie inside the store. *)
Definition valid (s : state T) (w : Array_Wrapper T N) : Prop :=
  m_array w + N ≤ length (cells s).

#[global] Instance valid_dec s w : Decision (valid s w).
Proof. unfold valid. apply _. Defined.

(** What the referenced storage holds. *)
Definition contents (s : state T) (w : Array_Wrapper T N) : list T :=
  window (m_array w) N (cells s).

Definition valid_array (s : state T) (a : std_array T N) : Prop :=
  data a + N ≤ length (cells s).

Definition array_contents (s : state T) (a : std_array T N) : list T :=
  window (data a) N (cells s).
End Views.

(** A non-const member function returns the object it was called on as it is
  after the call; [swap] also returns its argument, which it takes by
  non-const reference. *)

(** *** array_wrapper.hpp *)
Module Hpp.
Section Members.
Context {T : Type} `{!ValueType T} {N : nat}.
Local Abbreviation Array_Wrapper := (Array_Wrapper T N).

(* CONSTRUCTORS *)
Definition from_array (array_ : addr) : Array_Wrapper := make_wrapper array_.
Definition from_pointer (array_ : addr) : Array_Wrapper := make_wrapper array_.

(* ITERATORS *)
Definition begin (this : Array_Wrapper) : addr := m_array this.
Definition end_ (this : Array_Wrapper) : addr := m_array this + N.
Definition rbegin (this : Array_Wrapper) : Std.reverse_iterator :=
  Std.make_reverse_iterator (end_ this).
Definition rend (this : Array_Wrapper) : Std.reverse_iterator :=
  Std.make_reverse_iterator (begin this).

(* COMPARISON *)
Definition op_eq (this other : Array_Wrapper) : bool :=
  bool_decide (m_array this = m_array other).
Definition op_ne (this other : Array_Wrapper) : bool :=
  bool_decide (m_array this ≠ m_array other).

(* ASSIGNMENT: the header declares no [operator=]. The class has the
   implicitly-declared copy and move assignment, which assign the one data
   member and touch no element. *)
Definition op_assign (this other : Array_Wrapper) : Array_Wrapper :=
  make_wrapper (m_array other).
Definition op_move_assign (this other : Array_Wrapper) : Array_Wrapper :=
  make_wrapper (m_array other).

(* FILL / SWAP *)
Definition fill (this : Array_Wrapper) (val : T) : M T Array_Wrapper :=
  Std.fill_n (begin this) N val;;
  mret this.

Definition swap (this other : Array_Wrapper) : M T (Array_Wrapper * Array_Wrapper) :=
  (if bool_decide (m_array this ≠ m_array other)
   then Std.swap_ranges (begin this) (end_ this) (begin other);; mret ()
   else mret ());;
  mret (this, other).

Definition swap_array (this : Array_Wrapper) (other : std_array T N)
    : M T (Array_Wrapper * std_array T N) :=
  (if bool_decide (m_array this ≠ data other)
   then Std.swap_ranges (begin this) (end_ this) (data other);; mret ()
   else mret ());;
  mret (this, other).

(* CAPACITY *)
Definition size (this : Array_Wrapper) : nat := N.
Definition max_size (this : Array_Wrapper) : nat := N.
(** [return N;] in a function returning [bool]: the integer converts to
    [true] exactly when it is not zero. *)
Definition empty (this : Array_Wrapper) : bool := negb (N =? 0).

(* ELEMENT ACCESS: a reference is the address of the slot *)
Definition op_index (this : Array_Wrapper) (pos : nat) : addr := m_array this + pos.

Definition at_ (this : Array_Wrapper) (pos : nat) : M T addr :=
  (if decide (N ≤ pos)
   then throw (out_of_range ("Out of range: " +:+ pretty pos))
   else mret ());;
  mret (m_array this + pos).

Definition front (this : Array_Wrapper) : addr := m_array this + 0.
Definition back (this : Array_Wrapper) : addr := m_array this + (N - 1).
Definition data (this : Array_Wrapper) : addr := m_array this.
End Members.
End Hpp.

(** *** The header of README.md *)
Module Readme.
Section Members.
Context {T : Type} `{!ValueType T} {N : nat}.
Local Abbreviation Array_Wrapper := (Array_Wrapper T N).

(* CONSTRUCTORS: both carry [static_assert(N > 0)] *)
Definition from_array (array_ : addr) (static_assert : 0 < N) : Array_Wrapper :=
  make_wrapper array_.
Definition from_pointer (array_ : addr) (static_assert : 0 < N) : Array_Wrapper :=
  make_wrapper array_.

(* ITERATORS *)
Definition begin (this : Array_Wrapper) : addr := m_array this.
Definition end_ (this : Array_Wrapper) : addr := m_array this + N.
Definition rbegin (this : Array_Wrapper) : Std.reverse_iterator :=
  Std.make_reverse_iterator (end_ this).
Definition rend (this : Array_Wrapper) : Std.reverse_iterator :=
  Std.make_reverse_iterator (begin this).

(* COMPARISON *)
Definition op_eq (this other : Array_Wrapper) : M T bool :=
  Std.equal (begin this) (end_ this) (begin other).

Definition op_ne (this other : Array_Wrapper) : M T bool :=
  e ← op_eq this other;
  mret (negb e).

Definition op_lt (this other : Array_Wrapper) : M T bool :=
  Std.lexicographical_compare (begin this) (end_ this) (begin other) (end_ other) value_lt.

Definition op_gt (this other : Array_Wrapper) : M T bool :=
  let comp := λ a b : T, value_gt a b in
  Std.lexicographical_compare (begin this) (end_ this) (begin other) (end_ other) comp.

Definition op_le (this other : Array_Wrapper) : M T bool :=
  let comp := λ a b : T, value_le a b in
  Std.lexicographical_compare (begin this) (end_ this) (begin other) (end_ other) comp.

Definition op_ge (this other : Array_Wrapper) : M T bool :=
  let comp := λ a b : T, value_ge a b in
  Std.lexicographical_compare (begin this) (end_ this) (begin other) (end_ other) comp.

(* ASSIGNMENT *)
Definition op_assign (this other : Array_Wrapper) : M T Array_Wrapper :=
  ne ← op_ne this other;
  (if ne : bool
   then Std.copy (begin other) (end_ other) (begin this);; mret ()
   else mret ());;
  mret this.

Definition op_assign_array (this : Array_Wrapper) (other : std_array T N)
    : M T Array_Wrapper :=
  (if bool_decide (m_array this ≠ data other)
   then Std.copy (data other) (data other + N) (begin this);; mret ()
   else mret ());;
  mret this.

Definition op_move_assign (this other : Array_Wrapper) : M T Array_Wrapper :=
  ne ← op_ne this other;
  (if ne : bool
   then Std.move (begin other) (end_ other) (begin this);; mret ()
   else mret ());;
  mret this.

Definition op_move_assign_array (this : Array_Wrapper) (other : std_array T N)
    : M T Array_Wrapper :=
  (if bool_decide (m_array this ≠ data other)
   then Std.move (data other) (data other + N) (begin this);; mret ()
   else mret ());;
  mret this.

(* FILL / SWAP *)
Definition fill (this : Array_Wrapper) (val : T) : M T Array_Wrapper :=
  Std.fill_n (begin this) N val;;
  mret this.

Definition swap (this other : Array_Wrapper) : M T (Array_Wrapper * Array_Wrapper) :=
  ne ← op_ne this other;
  (if ne : bool
   then Std.swap_ranges (begin this) (end_ this) (begin other);; mret ()
   else mret ());;
  mret (this, other).

Definition swap_array (this : Array_Wrapper) (other : std_array T N)
    : M T (Array_Wrapper * std_array T N) :=
  (if bool_decide (m_array this ≠ data other)
   then Std.swap_ranges (begin this) (end_ this) (data other);; mret ()
   else mret ());;
  mret (this, other).

(* CAPACITY *)
Definition size (this : Array_Wrapper) : nat := N.
Definition max_size (this : Array_Wrapper) : nat := N.
Definition empty (this : Array_Wrapper) : bool := N =? 0.

(* ELEMENT ACCESS: a reference is the address of the slot *)
Definition op_index (this : Array_Wrapper) (pos : nat) : addr := m_array this + pos.

Definition raise_range_error (this : Array_Wrapper) (pos : nat) : M T () :=
  throw (out_of_range ("Out of range: " +:+ pretty pos)).

Definition at_const (this : Array_Wrapper) (pos : nat) : M T addr :=
  (if decide (N ≤ pos) then raise_range_error this pos else mret ());;
  mret (m_array this + pos).

(** The non-const overload calls the const one and casts the constness of
    the result away. *)
Definition at_ (this : Array_Wrapper) (pos : nat) : M T addr :=
  let const_this := this in
  at_const const_this pos.

Definition front (this : Array_Wrapper) : addr := m_array this + 0.
Definition back (this : Array_Wrapper) : addr := m_array this + (N - 1).
Definition data (this : Array_Wrapper) : addr := m_array this.
End Members.
End Readme.

(** ** Lexicographic order on contents

    The order of [std::array]: [a < b] when, at the first position where the
    two differ, the element of [a] is the smaller one, or when [a] is a proper
    prefix of [b]. The other three comparisons are derived from it. *)
Section Lexicographic.
Context {T : Type} `{!ValueType T}.

Fixpoint lex_lt (a b : list T) : bool :=
  match a, b with
  | _, [] => false
  | [], _ :: _ => true
  | x :: a', y :: b' =>
      if bool_decide (x = y) then lex_lt a' b' else value_lt x y
  end.

(** The loop of [std::lexicographical_compare], run on two lists. *)
Fixpoint lexicographical_compare_list (comp : T → T → bool) (a b : list T) : bool :=
  match a, b with
  | x :: a', y :: b' =>
      if comp x y then true
      else if comp y x then false
      else lexicographical_compare_list comp a' b'
  | [], _ :: _ => true
  | _, [] => false
  end.

Definition lex_gt (a b : list T) : bool := lex_lt b a.
Definition lex_le (a b : list T) : bool := negb (lex_lt b a).
Definition lex_ge (a b : list T) : bool := negb (lex_lt a b).
End Lexicographic.

(** ** Running the README example

    [int arr[5] = {1, 3, 5, 7, 9}] at address 0, nothing assigned yet. *)
Definition initial (l : list Z) : state Z := State l [].

(** [N] ints at address [p], viewed through a wrapper. *)
Definition view (N : nat) (p : addr) : Array_Wrapper Z N := make_wrapper p.

(** [{1, 3, 5, 7, 9}] at address 0. *)
Definition arr : state Z := initial [1; 3; 5; 7; 9]%Z.

(** Two arrays with the same contents [{1, 2, 3}], at addresses 0 and 3. *)
Definition twins : state Z := initial [1; 2; 3; 1; 2; 3]%Z.

(** [{1, 2, 3}] at address 0 and [{3, 2, 1}] at address 3. *)
Definition asc_desc : state Z := initial [1; 2; 3; 3; 2; 1]%Z.

(** [{1, 5}] at address 0 and [{1, 2}] at address 2. *)
Definition pairs : state Z := initial [1; 5; 1; 2]%Z.

(** ** Reading through a sequence of references *)
Fixpoint read_all {T : Type} (refs : list addr) : M T (list T) :=
  match refs with
  | [] => mret []
  | r :: refs' =>
      v ← load r;
      vs ← read_all refs';
      mret (v :: vs)
  end.

(** * Properties *)

(** ** The monad *)
Section Monad.
Context {T : Type}.

Lemma bind_Ok {A B} (m : M T A) (f : A → M T B) s a s' :
  m s = Ok a s' → (m ≫= f) s = f a s'.
Proof. intros E. unfold mbind, M_bind. by rewrite E. Qed.

Lemma bind_Throw {A B} (m : M T A) (f : A → M T B) s e s' :
  m s = Throw e s' → (m ≫= f) s = Throw e s'.
Proof. intros E. unfold mbind, M_bind. by rewrite E. Qed.

Lemma bind_Undefined {A B} (m : M T A) (f : A → M T B) s :
  m s = Undefined → (m ≫= f) s = Undefined.
Proof. intros E. unfold mbind, M_bind. by rewrite E. Qed.

Lemma load_Ok (s : state T) p v : cells s !! p = Some v → load p s = Ok v s.
Proof. intros E. unfold load. by rewrite E. Qed.

Lemma store_Ok (s : state T) p v :
  p < length (cells s) →
  store p v s = Ok () (State (<[p:=v]> (cells s)) ((p, v) :: stores s)).
Proof. intros E. unfold store. by rewrite decide_True. Qed.

Lemma no_throw_ret {A} (a : A) : no_throw (mret a : M T A).
Proof. by intros s e s'. Qed.

Lemma no_throw_undefined {A} : no_throw (undefined : M T A).
Proof. by intros s e s'. Qed.

Lemma no_throw_bind {A B} (m : M T A) (f : A → M T B) :
  no_throw m → (∀ a, no_throw (f a)) → no_throw (m ≫= f).
Proof.
  intros Hm Hf s e s'. unfold mbind, M_bind.
  destruct (m s) as [a s1|e1 s1|] eqn:E; [apply Hf| |done].
  by destruct (Hm s e1 s1).
Qed.

Lemma no_throw_load p : no_throw (load p : M T T).
Proof. intros s e s'. unfold load. by destruct (cells s !! p). Qed.

Lemma no_throw_store p v : no_throw (store p v : M T ()).
Proof. intros s e s'. unfold store. by case_decide. Qed.
End Monad.

Create HintDb no_throw.
#[export] Hint Resolve no_throw_ret no_throw_undefined no_throw_load no_throw_store : no_throw.

(** Breaks a computation down to its loads and stores. *)
Ltac no_throw_step :=
  lazymatch goal with
  | |- no_throw (_ ≫= _) => apply no_throw_bind; [|intros ?]
  | |- no_throw (if ?b then _ else _) => destruct b
  | |- no_throw (match ?n with 0 => _ | S _ => _ end) => destruct n
  | |- no_throw (let _ := _ in _) => cbv zeta
  | |- no_throw _ => solve [auto with no_throw]
  end.

(** ** Windows of the store *)
Section Windows.
Context {T : Type}.
Implicit Types (l k : list T) (first d n i : nat).

Lemma window_length first n l :
  first + n ≤ length l → length (window first n l) = n.
Proof. intros. unfold window. rewrite length_take, length_drop. lia. Qed.

Lemma window_lookup first n l i :
  i < n → window first n l !! i = l !! (first + i).
Proof. intros. unfold window. by rewrite lookup_take_lt, lookup_drop. Qed.

Lemma window_cons first n l v :
  l !! first = Some v → window first (S n) l = v :: window (S first) n l.
Proof.
  intros E. unfold window. rewrite (drop_S _ _ _ E). done.
Qed.

Lemma window_0 first l : window first 0 l = [].
Proof. done. Qed.

Lemma window_ext first1 first2 n l1 l2 :
  (∀ i, i < n → l1 !! (first1 + i) = l2 !! (first2 + i)) →
  window first1 n l1 = window first2 n l2.
Proof.
  intros E. apply list_eq. intros i. unfold window.
  rewrite !lookup_take, !lookup_drop. case_decide; auto.
Qed.

Lemma window_insert_outside first n l d v :
  ¬ (first ≤ d < first + n) →
  window first n (<[d:=v]> l) = window first n l.
Proof.
  intros. apply window_ext. intros i ?.
  apply list_lookup_insert_ne. lia.
Qed.

Lemma window_inserts_outside first n l d k :
  first + n ≤ d ∨ d + length k ≤ first →
  window first n (list_inserts d k l) = window first n l.
Proof.
  intros. apply window_ext. intros i ?.
  destruct (decide (first + i < d)).
  - by apply list_lookup_inserts_lt.
  - apply list_lookup_inserts_ge. lia.
Qed.

Lemma window_inserts_same n l d k :
  length k = n → d + n ≤ length l →
  window d n (list_inserts d k l) = k.
Proof.
  intros Hk Hl. apply list_eq. intros i.
  destruct (decide (i < n)).
  - rewrite window_lookup by done.
    rewrite list_lookup_inserts by lia. f_equal. lia.
  - unfold window. rewrite lookup_take_ge by lia.
    symmetry. apply lookup_ge_None. lia.
Qed.

Lemma window_lookup_Some first n l :
  first + S n ≤ length l → ∃ v, l !! first = Some v.
Proof. intros. apply lookup_lt_is_Some. lia. Qed.
End Windows.

Section Inserts.
Context {T : Type}.
Implicit Types (l k : list T).

Lemma list_lookup_inserts_decide l i k j :
  list_inserts i k l !! j =
  if decide (i ≤ j < i + length k ∧ j < length l) then k !! (j - i) else l !! j.
Proof.
  case_decide as H.
  - destruct H. by apply list_lookup_inserts.
  - destruct (decide (j < i)); [by apply list_lookup_inserts_lt|].
    destruct (decide (i + length k ≤ j)); [by apply list_lookup_inserts_ge|].
    rewrite !(proj2 (lookup_ge_None _ _)); [done|lia|rewrite length_inserts; lia].
Qed.

Lemma list_insert_inserts_outside l i x j k :
  ¬ (j ≤ i < j + length k) →
  <[i:=x]> (list_inserts j k l) = list_inserts j k (<[i:=x]> l).
Proof.
  intros H. apply list_eq. intros p.
  rewrite list_lookup_insert, !list_lookup_inserts_decide, list_lookup_insert.
  rewrite length_inserts, length_insert.
  repeat case_decide; try done; lia.
Qed.

Lemma list_insert_swap l i j x y :
  i ≠ j → <[i:=x]> (<[j:=y]> l) = <[j:=y]> (<[i:=x]> l).
Proof.
  intros H. apply list_eq. intros p.
  rewrite !list_lookup_insert, !length_insert.
  repeat case_decide; try done; lia.
Qed.
End Inserts.

(** ** The algorithms *)
Section AlgorithmSpecs.
Context {T : Type} `{!ValueType T}.
Implicit Types (s : state T) (first d_first n : nat).

Lemma fill_n_spec n : ∀ first val s,
  first + n ≤ length (cells s) →
  Std.fill_n first n val s =
  Ok (first + n)
     (State (list_inserts first (replicate n val) (cells s))
            (reverse ((., val) <$> seq first n) ++ stores s)).
Proof.
  induction n as [|n IH]; intros first val [l st] Hlen; simpl in *.
  - by rewrite Nat.add_0_r.
  - erewrite bind_Ok; [|apply store_Ok; simpl; lia]. simpl.
    rewrite IH by (simpl; rewrite length_insert; lia). simpl.
    rewrite reverse_cons, <- app_assoc. simpl.
    rewrite list_insert_inserts_lt by lia.
    do 2 f_equal. lia.
Qed.

Lemma copy_loop_spec n : ∀ first d_first s,
  first + n ≤ length (cells s) → d_first + n ≤ length (cells s) →
  d_first < first ∨ first + n ≤ d_first →
  ∃ log, length log = n ∧
    Std.copy_loop n first d_first s =
    Ok (d_first + n)
       (State (list_inserts d_first (window first n (cells s)) (cells s)) (log ++ stores s)).
Proof.
  induction n as [|n IH]; intros first d [l st] H1 H2 Hd; simpl in *.
  - exists []. split; [done|]. by rewrite Nat.add_0_r.
  - destruct (window_lookup_Some first n l H1) as [v Hv].
    erewrite bind_Ok; [|by apply load_Ok].
    erewrite bind_Ok; [|apply store_Ok; simpl; lia]. simpl.
    destruct (IH (S first) (S d) (State (<[d:=v]> l) ((d, v) :: st)))
      as (log & Hlog & ->); simpl; rewrite ?length_insert; try lia.
    exists (log ++ [(d, v)]). split.
    { rewrite length_app. simpl. lia. }
    rewrite <- app_assoc. simpl.
    rewrite (window_cons _ _ _ _ Hv). simpl.
    rewrite window_insert_outside by lia.
    rewrite list_insert_inserts_lt by lia.
    do 2 f_equal. lia.
Qed.

Lemma move_assign_Ok (s : state T) dst src v :
  cells s !! src = Some v → dst < length (cells s) →
  Std.move_assign dst src s =
  Ok () (State (<[src:=moved_from v]> (<[dst:=v]> (cells s))) ((dst, v) :: stores s)).
Proof. intros E Hd. unfold Std.move_assign. by rewrite E, decide_True. Qed.

Lemma no_throw_move_assign dst src : no_throw (Std.move_assign dst src : M T ()).
Proof.
  intros s e s'. unfold Std.move_assign.
  destruct (cells s !! src); [by case_decide|done].
Qed.

Lemma move_loop_spec n : ∀ first d_first s,
  first + n ≤ length (cells s) → d_first + n ≤ length (cells s) →
  d_first < first ∨ first + n ≤ d_first →
  ∃ log, length log = n ∧
    Std.move_loop n first d_first s =
    Ok (d_first + n)
       (State (list_inserts d_first (window first n (cells s))
                 (list_inserts first (moved_from <$> window first n (cells s)) (cells s)))
              (log ++ stores s)).
Proof.
  induction n as [|n IH]; intros first d [l st] H1 H2 Hd; simpl in *.
  - exists []. split; [done|]. by rewrite Nat.add_0_r.
  - destruct (window_lookup_Some first n l H1) as [v Hv].
    erewrite bind_Ok; [|apply move_assign_Ok; [done|simpl; lia]]. simpl.
    destruct (IH (S first) (S d)
      (State (<[first:=moved_from v]> (<[d:=v]> l)) ((d, v) :: st)))
      as (log & Hlog & ->); simpl; rewrite ?length_insert; try lia.
    exists (log ++ [(d, v)]). split.
    { rewrite length_app. simpl. lia. }
    rewrite <- app_assoc. simpl.
    rewrite (window_cons _ _ _ _ Hv). simpl.
    rewrite !window_insert_outside by lia.
    assert (length (window (S first) n l) = n) as Hw by (apply window_length; lia).
    f_equal; [lia|]. f_equal.
    rewrite <- (list_insert_inserts_lt (<[d:=v]> l) first (S first)) by lia.
    rewrite <- (list_insert_inserts_outside l d v (S first))
      by (rewrite length_fmap, Hw; lia).
    rewrite (list_insert_swap _ first d) by lia.
    by rewrite <- (list_insert_inserts_lt _ d (S d)) by lia.
Qed.

Lemma swap_ranges_loop_spec n : ∀ first1 first2 s,
  first1 + n ≤ length (cells s) → first2 + n ≤ length (cells s) →
  first1 + n ≤ first2 ∨ first2 + n ≤ first1 →
  ∃ log, length log = 2 * n ∧
    Std.swap_ranges_loop n first1 first2 s =
    Ok (first2 + n)
       (State (list_inserts first2 (window first1 n (cells s))
                 (list_inserts first1 (window first2 n (cells s)) (cells s)))
              (log ++ stores s)).
Proof.
  induction n as [|n IH]; intros f1 f2 [l st] H1 H2 Hd; simpl in *.
  - exists []. split; [done|]. by rewrite Nat.add_0_r.
  - destruct (window_lookup_Some f1 n l H1) as [x Hx].
    destruct (window_lookup_Some f2 n l H2) as [y Hy].
    unfold Std.iter_swap.
    erewrite bind_Ok.
    2:{ erewrite bind_Ok; [|by apply load_Ok].
        erewrite bind_Ok; [|by apply load_Ok].
        erewrite bind_Ok; [|apply store_Ok; simpl; lia].
        apply store_Ok. simpl. rewrite length_insert. lia. }
    simpl.
    destruct (IH (S f1) (S f2)
      (State (<[f2:=x]> (<[f1:=y]> l)) ((f2, x) :: (f1, y) :: st)))
      as (log & Hlog & ->); simpl; rewrite ?length_insert; try lia.
    exists (log ++ [(f2, x); (f1, y)]). split.
    { rewrite length_app. simpl. lia. }
    rewrite <- app_assoc. simpl.
    rewrite (window_cons _ _ _ _ Hx), (window_cons _ _ _ _ Hy). simpl.
    rewrite !window_insert_outside by lia.
    assert (length (window (S f2) n l) = n) as Hw by (apply window_length; lia).
    f_equal; [lia|]. f_equal.
    rewrite <- (list_insert_inserts_outside (<[f1:=y]> l) f2 x (S f1))
      by (rewrite Hw; lia).
    rewrite <- (list_insert_inserts_lt l f1 (S f1)) by lia.
    by rewrite <- (list_insert_inserts_lt _ f2 (S f2)) by lia.
Qed.

Lemma equal_loop_spec n : ∀ first1 first2 s,
  first1 + n ≤ length (cells s) → first2 + n ≤ length (cells s) →
  Std.equal_loop n first1 first2 s =
  Ok (bool_decide (window first1 n (cells s) = window first2 n (cells s))) s.
Proof.
  induction n as [|n IH]; intros f1 f2 s H1 H2; simpl in *; [done|].
  destruct (window_lookup_Some f1 n _ H1) as [x Hx].
  destruct (window_lookup_Some f2 n _ H2) as [y Hy].
  erewrite bind_Ok; [|by apply load_Ok].
  erewrite bind_Ok; [|by apply load_Ok].
  rewrite (window_cons _ _ _ _ Hx), (window_cons _ _ _ _ Hy).
  case_bool_decide as Hxy.
  - subst y. rewrite IH by lia. f_equal. apply bool_decide_ext.
    split; congruence.
  - rewrite bool_decide_eq_false_2; [done|]. congruence.
Qed.

Lemma lexicographical_compare_loop_spec comp n1 : ∀ n2 first1 first2 s,
  first1 + n1 ≤ length (cells s) → first2 + n2 ≤ length (cells s) →
  Std.lexicographical_compare_loop comp n1 n2 first1 first2 s =
  Ok (lexicographical_compare_list comp
        (window first1 n1 (cells s)) (window first2 n2 (cells s))) s.
Proof.
  induction n1 as [|n1 IH]; intros [|n2] f1 f2 s H1 H2; simpl in *; try done.
  - destruct (window_lookup_Some f2 n2 _ H2) as [y Hy].
    by rewrite (window_cons _ _ _ _ Hy).
  - rewrite window_0. by destruct (window f1 (S n1) (cells s)).
  - destruct (window_lookup_Some f1 n1 _ H1) as [x Hx].
    destruct (window_lookup_Some f2 n2 _ H2) as [y Hy].
    erewrite bind_Ok; [|by apply load_Ok].
    erewrite bind_Ok; [|by apply load_Ok].
    rewrite (window_cons _ _ _ _ Hx), (window_cons _ _ _ _ Hy). simpl.
    destruct (comp x y); [done|]. destruct (comp y x); [done|].
    apply IH; lia.
Qed.

Lemma no_throw_fill_n n : ∀ first (val : T), no_throw (Std.fill_n first n val).
Proof. induction n; intros; simpl; repeat no_throw_step. Qed.

Lemma no_throw_copy_loop n : ∀ first d_first,
  no_throw (Std.copy_loop n first d_first : M T addr).
Proof. induction n; intros; simpl; repeat no_throw_step. Qed.

Lemma no_throw_move_loop n : ∀ first d_first,
  no_throw (Std.move_loop n first d_first : M T addr).
Proof.
  induction n; intros; simpl; repeat no_throw_step.
  apply no_throw_move_assign.
Qed.

Lemma no_throw_swap_ranges_loop n : ∀ first1 first2,
  no_throw (Std.swap_ranges_loop n first1 first2 : M T addr).
Proof.
  induction n; intros; simpl; unfold Std.iter_swap; repeat no_throw_step.
Qed.

Lemma no_throw_equal_loop n : ∀ first1 first2,
  no_throw (Std.equal_loop n first1 first2 : M T bool).
Proof. induction n; intros; simpl; repeat no_throw_step. Qed.

Lemma no_throw_lexicographical_compare_loop (comp : T → T → bool) n1 :
  ∀ n2 first1 first2,
  no_throw (Std.lexicographical_compare_loop comp n1 n2 first1 first2).
Proof. induction n1; intros [|n2] ? ?; simpl; repeat no_throw_step. Qed.

Lemma no_throw_copy first last d_first :
  no_throw (Std.copy first last d_first : M T addr).
Proof. unfold Std.copy. repeat no_throw_step. apply no_throw_copy_loop. Qed.

Lemma no_throw_move first last d_first :
  no_throw (Std.move first last d_first : M T addr).
Proof. unfold Std.move. repeat no_throw_step. apply no_throw_move_loop. Qed.

Lemma no_throw_swap_ranges first1 last1 first2 :
  no_throw (Std.swap_ranges first1 last1 first2 : M T addr).
Proof.
  unfold Std.swap_ranges. repeat no_throw_step. apply no_throw_swap_ranges_loop.
Qed.

Lemma no_throw_equal first1 last1 first2 :
  no_throw (Std.equal first1 last1 first2 : M T bool).
Proof. unfold Std.equal. repeat no_throw_step. apply no_throw_equal_loop. Qed.

Lemma no_throw_lexicographical_compare first1 last1 first2 last2
    (comp : T → T → bool) :
  no_throw (Std.lexicographical_compare first1 last1 first2 last2 comp).
Proof.
  unfold Std.lexicographical_compare. repeat no_throw_step.
  apply no_throw_lexicographical_compare_loop.
Qed.
End AlgorithmSpecs.

#[export] Hint Resolve no_throw_fill_n no_throw_copy no_throw_move
  no_throw_swap_ranges no_throw_equal no_throw_lexicographical_compare : no_throw.

(** The algorithms on a range given by its two ends. *)
Section RangeSpecs.
Context {T : Type} `{!ValueType T}.
Implicit Types (s : state T) (first d_first n : nat).

Lemma copy_spec first n d_first s :
  first + n ≤ length (cells s) → d_first + n ≤ length (cells s) →
  ¬ (first ≤ d_first < first + n) →
  ∃ log, length log = n ∧
    Std.copy first (first + n) d_first s =
    Ok (d_first + n)
       (State (list_inserts d_first (window first n (cells s)) (cells s)) (log ++ stores s)).
Proof.
  intros H1 H2 Hd. unfold Std.copy.
  rewrite decide_False by lia. rewrite decide_False by lia.
  replace (first + n - first) with n by lia.
  apply copy_loop_spec; lia.
Qed.

Lemma copy_undefined first n d_first s :
  first ≤ d_first < first + n →
  Std.copy first (first + n) d_first s = Undefined.
Proof.
  intros Hd. unfold Std.copy.
  rewrite decide_False by lia. by rewrite decide_True by lia.
Qed.

Lemma move_spec first n d_first s :
  first + n ≤ length (cells s) → d_first + n ≤ length (cells s) →
  ¬ (first ≤ d_first < first + n) →
  ∃ log, length log = n ∧
    Std.move first (first + n) d_first s =
    Ok (d_first + n)
       (State (list_inserts d_first (window first n (cells s))
                 (list_inserts first (moved_from <$> window first n (cells s)) (cells s)))
              (log ++ stores s)).
Proof.
  intros H1 H2 Hd. unfold Std.move.
  rewrite decide_False by lia. rewrite decide_False by lia.
  replace (first + n - first) with n by lia.
  apply move_loop_spec; lia.
Qed.

Lemma move_undefined first n d_first s :
  first ≤ d_first < first + n →
  Std.move first (first + n) d_first s = Undefined.
Proof.
  intros Hd. unfold Std.move.
  rewrite decide_False by lia. by rewrite decide_True by lia.
Qed.

Lemma swap_ranges_spec first1 n first2 s :
  first1 + n ≤ length (cells s) → first2 + n ≤ length (cells s) →
  first1 + n ≤ first2 ∨ first2 + n ≤ first1 →
  ∃ log, length log = 2 * n ∧
    Std.swap_ranges first1 (first1 + n) first2 s =
    Ok (first2 + n)
       (State (list_inserts first2 (window first1 n (cells s))
                 (list_inserts first1 (window first2 n (cells s)) (cells s)))
              (log ++ stores s)).
Proof.
  intros H1 H2 Hd. unfold Std.swap_ranges.
  rewrite decide_False by lia.
  replace (first1 + n - first1) with n by lia.
  rewrite decide_False by lia.
  apply swap_ranges_loop_spec; lia.
Qed.

Lemma swap_ranges_undefined first1 n first2 s :
  first1 < first2 + n → first2 < first1 + n →
  Std.swap_ranges first1 (first1 + n) first2 s = Undefined.
Proof.
  intros Ha Hb. unfold Std.swap_ranges.
  rewrite decide_False by lia.
  replace (first1 + n - first1) with n by lia.
  by rewrite decide_True by lia.
Qed.

Lemma equal_spec first1 n first2 s :
  first1 + n ≤ length (cells s) → first2 + n ≤ length (cells s) →
  Std.equal first1 (first1 + n) first2 s =
  Ok (bool_decide (window first1 n (cells s) = window first2 n (cells s))) s.
Proof.
  intros H1 H2. unfold Std.equal. rewrite decide_False by lia.
  replace (first1 + n - first1) with n by lia.
  by apply equal_loop_spec.
Qed.

Lemma lexicographical_compare_spec comp first1 n1 first2 n2 s :
  first1 + n1 ≤ length (cells s) → first2 + n2 ≤ length (cells s) →
  Std.lexicographical_compare first1 (first1 + n1) first2 (first2 + n2) comp s =
  Ok (lexicographical_compare_list comp
        (window first1 n1 (cells s)) (window first2 n2 (cells s))) s.
Proof.
  intros H1 H2. unfold Std.lexicographical_compare. rewrite decide_False by lia.
  replace (first1 + n1 - first1) with n1 by lia.
  replace (first2 + n2 - first2) with n2 by lia.
  by apply lexicographical_compare_loop_spec.
Qed.

(** A log that grew is not the log it grew from. *)
Lemma grown_state_ne (l : list T) log s :
  0 < length log → State l (log ++ stores s) ≠ s.
Proof.
  intros Hlen E. apply (f_equal stores) in E. simpl in E.
  apply (f_equal length) in E. rewrite length_app in E. lia.
Qed.
End RangeSpecs.

(** ** Lexicographic comparison *)
Section LexSpecs.
Context {T : Type} `{ValueLaws T}.

Lemma lexicographical_compare_list_lt (a b : list T) :
  lexicographical_compare_list value_lt a b = lex_lt a b.
Proof.
  revert b. induction a as [|x a IH]; intros [|y b]; simpl; try done.
  case_bool_decide as E.
  - subst y. by rewrite value_lt_irrefl.
  - destruct (value_lt x y) eqn:Hxy; [done|].
    destruct (value_lt y x) eqn:Hyx; [done|].
    by destruct E; apply value_lt_total.
Qed.

(** For two ranges of one length; on a proper prefix the loop answers [true]
    whatever the comparator. *)
Lemma lexicographical_compare_list_gt (a b : list T) :
  length a = length b →
  lexicographical_compare_list (λ x y, value_gt x y) a b = lex_gt a b.
Proof.
  unfold lex_gt. rewrite <- lexicographical_compare_list_lt.
  revert b. induction a as [|x a IH]; intros [|y b] Hlen; simpl in *; try done.
  rewrite !value_gt_lt.
  destruct (value_lt y x) eqn:Hyx; [done|].
  destruct (value_lt x y) eqn:Hxy; [done|].
  apply IH. lia.
Qed.

(** With a non-strict comparator the loop never gets past the first pair. *)
Lemma lexicographical_compare_list_le (x y : T) (a b : list T) :
  lexicographical_compare_list (λ x y, value_le x y) (x :: a) (y :: b) = value_le x y.
Proof.
  simpl. rewrite !value_le_lt.
  destruct (value_lt y x) eqn:Hyx; simpl; [|done].
  by rewrite (value_lt_asym _ _ Hyx).
Qed.

Lemma lexicographical_compare_list_ge (x y : T) (a b : list T) :
  lexicographical_compare_list (λ x y, value_ge x y) (x :: a) (y :: b) = value_ge x y.
Proof.
  simpl. rewrite !value_ge_lt.
  destruct (value_lt x y) eqn:Hxy; simpl; [|done].
  by rewrite (value_lt_asym _ _ Hxy).
Qed.
End LexSpecs.

#[global] Instance int_laws : ValueLaws Z.
Proof.
  split; simpl; intros.
  - apply Z.ltb_irrefl.
  - apply Z.ltb_ge in H, H0. lia.
  - apply Z.ltb_lt in H. apply Z.ltb_ge. lia.
  - apply Z.gtb_ltb.
  - rewrite Z.leb_antisym. done.
  - rewrite Z.geb_leb, Z.leb_antisym. done.
Qed.

(** ** Member functions of the README header *)
Section ReadmeSpecs.
Context {T : Type} `{!ValueType T} {N : nat}.
Implicit Types (s : state T) (this other : Array_Wrapper T N) (arr : std_array T N).

Lemma contents_length s this : valid s this → length (contents s this) = N.
Proof. apply window_length. Qed.

Lemma readme_op_eq_spec this other s :
  valid s this → valid s other →
  Readme.op_eq this other s = Ok (bool_decide (contents s this = contents s other)) s.
Proof. intros. by apply equal_spec. Qed.

Lemma readme_op_ne_spec this other s :
  valid s this → valid s other →
  Readme.op_ne this other s =
  Ok (negb (bool_decide (contents s this = contents s other))) s.
Proof.
  intros. unfold Readme.op_ne.
  erewrite bind_Ok; [|by apply readme_op_eq_spec]. done.
Qed.

Lemma readme_op_assign_same this other s :
  valid s this → valid s other → contents s this = contents s other →
  Readme.op_assign this other s = Ok this s.
Proof.
  intros ?? E. unfold Readme.op_assign.
  erewrite bind_Ok; [|by apply readme_op_ne_spec].
  by rewrite bool_decide_eq_true_2.
Qed.

Lemma readme_op_assign_differ this other s :
  valid s this → valid s other → contents s this ≠ contents s other →
  ¬ (m_array other ≤ m_array this < m_array other + N) →
  ∃ log, length log = N ∧
    Readme.op_assign this other s =
    Ok this (State (list_inserts (m_array this) (contents s other) (cells s))
                   (log ++ stores s)).
Proof.
  intros H1 H2 E Hd. unfold Readme.op_assign.
  erewrite bind_Ok; [|by apply readme_op_ne_spec].
  rewrite bool_decide_eq_false_2 by done. simpl.
  destruct (copy_spec (m_array other) N (m_array this) s) as (log & Hlog & Hc); try done.
  exists log. split; [done|].
  unfold Readme.begin, Readme.end_, mbind, M_bind. by rewrite Hc.
Qed.

Lemma readme_op_assign_undefined this other s :
  valid s this → valid s other → contents s this ≠ contents s other →
  m_array other ≤ m_array this < m_array other + N →
  Readme.op_assign this other s = Undefined.
Proof.
  intros H1 H2 E Hd. unfold Readme.op_assign.
  erewrite bind_Ok; [|by apply readme_op_ne_spec].
  rewrite bool_decide_eq_false_2 by done. simpl.
  unfold Readme.begin, Readme.end_, mbind, M_bind. by rewrite copy_undefined.
Qed.

Lemma readme_op_move_assign_same this other s :
  valid s this → valid s other → contents s this = contents s other →
  Readme.op_move_assign this other s = Ok this s.
Proof.
  intros ?? E. unfold Readme.op_move_assign.
  erewrite bind_Ok; [|by apply readme_op_ne_spec].
  by rewrite bool_decide_eq_true_2.
Qed.

Lemma readme_op_move_assign_differ this other s :
  valid s this → valid s other → contents s this ≠ contents s other →
  ¬ (m_array other ≤ m_array this < m_array other + N) →
  ∃ log, length log = N ∧
    Readme.op_move_assign this other s =
    Ok this (State (list_inserts (m_array this) (contents s other)
                      (list_inserts (m_array other) (moved_from <$> contents s other)
                         (cells s)))
                   (log ++ stores s)).
Proof.
  intros H1 H2 E Hd. unfold Readme.op_move_assign.
  erewrite bind_Ok; [|by apply readme_op_ne_spec].
  rewrite bool_decide_eq_false_2 by done. simpl.
  destruct (move_spec (m_array other) N (m_array this) s) as (log & Hlog & Hc); try done.
  exists log. split; [done|].
  unfold Readme.begin, Readme.end_, mbind, M_bind. by rewrite Hc.
Qed.

Lemma readme_op_move_assign_undefined this other s :
  valid s this → valid s other → contents s this ≠ contents s other →
  m_array other ≤ m_array this < m_array other + N →
  Readme.op_move_assign this other s = Undefined.
Proof.
  intros H1 H2 E Hd. unfold Readme.op_move_assign.
  erewrite bind_Ok; [|by apply readme_op_ne_spec].
  rewrite bool_decide_eq_false_2 by done. simpl.
  unfold Readme.begin, Readme.end_, mbind, M_bind. by rewrite move_undefined.
Qed.

Lemma readme_swap_same this other s :
  valid s this → valid s other → contents s this = contents s other →
  Readme.swap this other s = Ok (this, other) s.
Proof.
  intros ?? E. unfold Readme.swap.
  erewrite bind_Ok; [|by apply readme_op_ne_spec].
  by rewrite bool_decide_eq_true_2.
Qed.

Lemma readme_swap_differ this other s :
  valid s this → valid s other → contents s this ≠ contents s other →
  m_array this + N ≤ m_array other ∨ m_array other + N ≤ m_array this →
  ∃ log, length log = 2 * N ∧
    Readme.swap this other s =
    Ok (this, other)
       (State (list_inserts (m_array other) (contents s this)
                 (list_inserts (m_array this) (contents s other) (cells s)))
              (log ++ stores s)).
Proof.
  intros H1 H2 E Hd. unfold Readme.swap.
  erewrite bind_Ok; [|by apply readme_op_ne_spec].
  rewrite bool_decide_eq_false_2 by done. simpl.
  destruct (swap_ranges_spec (m_array this) N (m_array other) s)
    as (log & Hlog & Hc); try done.
  exists log. split; [done|].
  unfold Readme.begin, Readme.end_, mbind, M_bind. by rewrite Hc.
Qed.

Lemma readme_swap_undefined this other s :
  valid s this → valid s other → contents s this ≠ contents s other →
  m_array this < m_array other + N → m_array other < m_array this + N →
  Readme.swap this other s = Undefined.
Proof.
  intros H1 H2 E Ha Hb. unfold Readme.swap.
  erewrite bind_Ok; [|by apply readme_op_ne_spec].
  rewrite bool_decide_eq_false_2 by done. simpl.
  unfold Readme.begin, Readme.end_, mbind, M_bind.
  by rewrite swap_ranges_undefined.
Qed.

Lemma readme_op_assign_array_same this arr s :
  m_array this = data arr →
  Readme.op_assign_array this arr s = Ok this s.
Proof.
  intros E. unfold Readme.op_assign_array.
  by rewrite bool_decide_eq_false_2 by naive_solver.
Qed.

Lemma readme_op_assign_array_differ this arr s :
  valid s this → valid_array s arr → m_array this ≠ data arr →
  m_array this < data arr ∨ data arr + N ≤ m_array this →
  ∃ log, length log = N ∧
    Readme.op_assign_array this arr s =
    Ok this (State (list_inserts (m_array this) (array_contents s arr) (cells s))
                   (log ++ stores s)).
Proof.
  intros H1 H2 Hne Hd. unfold Readme.op_assign_array.
  rewrite bool_decide_eq_true_2 by done.
  destruct (copy_spec (data arr) N (m_array this) s) as (log & Hlog & Hc);
    [done|done|lia|].
  exists log. split; [done|].
  unfold Readme.begin, mbind, M_bind. by rewrite Hc.
Qed.

Lemma readme_op_move_assign_array_same this arr s :
  m_array this = data arr →
  Readme.op_move_assign_array this arr s = Ok this s.
Proof.
  intros E. unfold Readme.op_move_assign_array.
  by rewrite bool_decide_eq_false_2 by naive_solver.
Qed.

Lemma readme_op_move_assign_array_differ this arr s :
  valid s this → valid_array s arr → m_array this ≠ data arr →
  m_array this < data arr ∨ data arr + N ≤ m_array this →
  ∃ log, length log = N ∧
    Readme.op_move_assign_array this arr s =
    Ok this (State (list_inserts (m_array this) (array_contents s arr)
                      (list_inserts (data arr) (moved_from <$> array_contents s arr)
                         (cells s)))
                   (log ++ stores s)).
Proof.
  intros H1 H2 Hne Hd. unfold Readme.op_move_assign_array.
  rewrite bool_decide_eq_true_2 by done.
  destruct (move_spec (data arr) N (m_array this) s) as (log & Hlog & Hc);
    [done|done|lia|].
  exists log. split; [done|].
  unfold Readme.begin, mbind, M_bind. by rewrite Hc.
Qed.

(** What a view holds once [k] has been written over its slots. *)
Lemma contents_inserts_same this (k : list T) (l : list T) st s :
  valid s this → length k = N → length l = length (cells s) →
  contents (State (list_inserts (m_array this) k l) st) this = k.
Proof.
  intros Hv Hk Hl. unfold contents. simpl.
  apply window_inserts_same; [done|]. unfold valid in Hv. lia.
Qed.
End ReadmeSpecs.

(** ** Member functions of array_wrapper.hpp *)
Section HppSpecs.
Context {T : Type} `{!ValueType T} {N : nat}.
Implicit Types (s : state T) (this other : Array_Wrapper T N) (arr : std_array T N).

Lemma hpp_swap_same this other s :
  m_array this = m_array other → Hpp.swap this other s = Ok (this, other) s.
Proof.
  intros E. unfold Hpp.swap. by rewrite bool_decide_eq_false_2 by naive_solver.
Qed.

Lemma hpp_swap_differ this other s :
  valid s this → valid s other → m_array this ≠ m_array other →
  m_array this + N ≤ m_array other ∨ m_array other + N ≤ m_array this →
  ∃ log, length log = 2 * N ∧
    Hpp.swap this other s =
    Ok (this, other)
       (State (list_inserts (m_array other) (contents s this)
                 (list_inserts (m_array this) (contents s other) (cells s)))
              (log ++ stores s)).
Proof.
  intros H1 H2 E Hd. unfold Hpp.swap.
  rewrite bool_decide_eq_true_2 by done.
  destruct (swap_ranges_spec (m_array this) N (m_array other) s)
    as (log & Hlog & Hc); try done.
  exists log. split; [done|].
  unfold Hpp.begin, Hpp.end_, mbind, M_bind. by rewrite Hc.
Qed.

Lemma hpp_swap_undefined this other s :
  m_array this ≠ m_array other →
  m_array this < m_array other + N → m_array other < m_array this + N →
  Hpp.swap this other s = Undefined.
Proof.
  intros E Ha Hb. unfold Hpp.swap.
  rewrite bool_decide_eq_true_2 by done.
  unfold Hpp.begin, Hpp.end_, mbind, M_bind.
  by rewrite swap_ranges_undefined.
Qed.

(** The two versions share [fill], [swap] with a [std::array], the iterator
    accessors and unchecked access word for word. *)
Lemma fill_same_in_both this val : Hpp.fill this val = Readme.fill this val.
Proof. done. Qed.

Lemma fill_spec this val s :
  valid s this →
  Hpp.fill this val s =
  Ok this (State (list_inserts (m_array this) (replicate N val) (cells s))
                 (reverse ((., val) <$> seq (m_array this) N) ++ stores s)).
Proof.
  intros Hv. unfold Hpp.fill, Hpp.begin.
  erewrite bind_Ok; [|by apply fill_n_spec]. done.
Qed.

Lemma hpp_at_spec this pos s :
  Hpp.at_ this pos s =
  if decide (pos < N) then Ok (m_array this + pos) s
  else Throw (out_of_range ("Out of range: " +:+ pretty pos)) s.
Proof.
  unfold Hpp.at_. destruct (decide (N ≤ pos)).
  - by rewrite decide_False by lia.
  - by rewrite decide_True by lia.
Qed.

Lemma readme_at_spec this pos s :
  Readme.at_ this pos s =
  if decide (pos < N) then Ok (m_array this + pos) s
  else Throw (out_of_range ("Out of range: " +:+ pretty pos)) s.
Proof.
  unfold Readme.at_, Readme.at_const, Readme.raise_range_error.
  destruct (decide (N ≤ pos)).
  - by rewrite decide_False by lia.
  - by rewrite decide_True by lia.
Qed.

(** The message identifies the index. *)
Lemma range_error_carries_index (pos pos' : nat) :
  out_of_range ("Out of range: " +:+ pretty pos) =
  out_of_range ("Out of range: " +:+ pretty pos') → pos = pos'.
Proof.
  intros [= E]. by apply (inj pretty).
Qed.

Lemma no_throw_readme_op_eq this other : no_throw (Readme.op_eq this other).
Proof. unfold Readme.op_eq. auto with no_throw. Qed.

Lemma no_throw_readme_op_ne this other : no_throw (Readme.op_ne this other).
Proof.
  unfold Readme.op_ne. apply no_throw_bind; [apply no_throw_readme_op_eq|].
  auto with no_throw.
Qed.

Lemma hpp_empty_spec this : 0 < N → Hpp.empty this = true.
Proof. unfold Hpp.empty. by destruct N; [lia|]. Qed.

Lemma readme_empty_spec this : 0 < N → Readme.empty this = false.
Proof. unfold Readme.empty. by destruct N; [lia|]. Qed.

Lemma hpp_size_spec this : Hpp.size this = N ∧ Hpp.max_size this = N.
Proof. done. Qed.

Lemma readme_size_spec this : Readme.size this = N ∧ Readme.max_size this = N.
Proof. done. Qed.
End HppSpecs.

#[export] Hint Resolve no_throw_readme_op_eq no_throw_readme_op_ne : no_throw.

(** ** Traversals *)
Section Traversals.
Context {T : Type}.

Lemma for_each_spec n : ∀ fuel first,
  n < fuel → Std.for_each fuel first (first + n) = Some (seq first n).
Proof.
  induction n as [|n IH]; intros [|fuel] first Hf; try lia; simpl.
  - by rewrite Nat.add_0_r, bool_decide_eq_true_2.
  - rewrite bool_decide_eq_false_2 by lia.
    replace (first + S n) with (S first + n) by lia.
    by rewrite IH by lia.
Qed.

Lemma rfor_each_spec n : ∀ fuel base,
  n < fuel →
  Std.rfor_each fuel (Std.make_reverse_iterator (base + n))
    (Std.make_reverse_iterator base) = Some (reverse (seq base n)).
Proof.
  induction n as [|n IH]; intros [|fuel] base Hf; try lia.
  - simpl. unfold Std.req. simpl.
    by rewrite Nat.add_0_r, bool_decide_eq_true_2.
  - rewrite seq_S, reverse_snoc. simpl.
    unfold Std.req, Std.rderef, Std.rnext. simpl.
    rewrite bool_decide_eq_false_2 by lia.
    replace (base + S n - 1) with (base + n) by lia.
    by rewrite IH by lia.
Qed.

(** Without enough fuel the loop has not met [last] yet. *)
Lemma for_each_out_of_fuel n : ∀ fuel first,
  fuel ≤ n → Std.for_each fuel first (first + n) = None.
Proof.
  induction n as [|n IH]; intros [|fuel] first Hf; try lia; simpl; try done.
  rewrite bool_decide_eq_false_2 by lia.
  replace (first + S n) with (S first + n) by lia.
  by rewrite IH by lia.
Qed.

Lemma read_all_spec (refs : list addr) (vs : list T) (s : state T) :
  Forall2 (λ r v, cells s !! r = Some v) refs vs →
  read_all refs s = Ok vs s.
Proof.
  induction 1 as [|r v refs vs Hr _ IH]; simpl; [done|].
  erewrite bind_Ok; [|by apply load_Ok].
  erewrite bind_Ok; [|done]. done.
Qed.

Lemma window_refs first n (l : list T) :
  first + n ≤ length l →
  Forall2 (λ r v, l !! r = Some v) (seq first n) (window first n l).
Proof.
  intros Hlen. apply Forall2_same_length_lookup_2.
  - by rewrite length_seq, window_length.
  - intros i r v Hr Hv.
    apply lookup_seq in Hr as [-> Hi].
    by rewrite window_lookup in Hv.
Qed.
End Traversals.

(** * The claims *)

(** ** Comparison *)
Section Comparison.
Context {T : Type} `{ValueLaws T} {N : nat}.
Implicit Types (s : state T) (this other : Array_Wrapper T N).

(** In the README header two views compare equal exactly when their
    contents are the same list, wherever the two storages are. *)
Lemma readme_equality_by_contents this other s :
  valid s this → valid s other →
  (contents s this = contents s other → Readme.op_eq this other s = Ok true s) ∧
  (contents s this ≠ contents s other → Readme.op_eq this other s = Ok false s).
Proof.
  intros H1 H2. rewrite readme_op_eq_spec by done. split; intros E.
  - by rewrite bool_decide_eq_true_2.
  - by rewrite bool_decide_eq_false_2.
Qed.

(** In array_wrapper.hpp they compare equal exactly when they are views of
    the same storage. *)
Lemma hpp_equality_by_identity this other :
  Hpp.op_eq this other = true ↔ m_array this = m_array other.
Proof. unfold Hpp.op_eq. apply bool_decide_eq_true. Qed.

(** [operator<] and [operator>] of the README header are the lexicographic
    comparisons of the contents. *)
Lemma readme_op_lt_spec this other s :
  valid s this → valid s other →
  Readme.op_lt this other s = Ok (lex_lt (contents s this) (contents s other)) s.
Proof.
  intros H1 H2. unfold Readme.op_lt, Readme.begin, Readme.end_.
  rewrite lexicographical_compare_spec by done.
  by rewrite lexicographical_compare_list_lt.
Qed.

Lemma readme_op_gt_spec this other s :
  valid s this → valid s other →
  Readme.op_gt this other s = Ok (lex_gt (contents s this) (contents s other)) s.
Proof.
  intros H1 H2. unfold Readme.op_gt, Readme.begin, Readme.end_.
  rewrite lexicographical_compare_spec by done.
  rewrite lexicographical_compare_list_gt; [done|].
  by rewrite !window_length.
Qed.

(** [operator<=] and [operator>=] of the README header answer from the first
    elements alone. *)
Lemma readme_op_le_spec this other s x y :
  0 < N → valid s this → valid s other →
  cells s !! m_array this = Some x → cells s !! m_array other = Some y →
  Readme.op_le this other s = Ok (value_le x y) s.
Proof.
  intros HN H1 H2 Hx Hy. unfold Readme.op_le, Readme.begin, Readme.end_.
  rewrite lexicographical_compare_spec by done.
  destruct N as [|n]; [lia|].
  rewrite (window_cons _ _ _ _ Hx), (window_cons _ _ _ _ Hy).
  by rewrite lexicographical_compare_list_le.
Qed.

Lemma readme_op_ge_spec this other s x y :
  0 < N → valid s this → valid s other →
  cells s !! m_array this = Some x → cells s !! m_array other = Some y →
  Readme.op_ge this other s = Ok (value_ge x y) s.
Proof.
  intros HN H1 H2 Hx Hy. unfold Readme.op_ge, Readme.begin, Readme.end_.
  rewrite lexicographical_compare_spec by done.
  destruct N as [|n]; [lia|].
  rewrite (window_cons _ _ _ _ Hx), (window_cons _ _ _ _ Hy).
  by rewrite lexicographical_compare_list_ge.
Qed.
End Comparison.

(** C1. Equality is meant to compare contents, never the identity of the
    storage. The two arrays of [twins] hold the same contents [{1, 2, 3}] at
    different addresses: [operator==] of array_wrapper.hpp compares the two
    pointers and answers [false], where the README header answers [true]. *)
Theorem hpp_equality_compares_addresses :
  contents twins (view 3 0) = contents twins (view 3 3) ∧
  Hpp.op_eq (view 3 0) (view 3 3) = false ∧
  Readme.op_eq (view 3 0) (view 3 3) twins = Ok true twins.
Proof. by vm_compute. Qed.

(** C2. Each ordering operator is meant to be the lexicographic comparison
    of the contents. [{1, 2, 3} < {3, 2, 1}] is answered correctly, but
    [{1, 5} <= {1, 2}] and [{1, 2} >= {1, 5}] are both answered [true] by the
    README header, against the lexicographic order. *)
Theorem readme_le_ge_not_lexicographic :
  Readme.op_lt (view 3 0) (view 3 3) asc_desc = Ok true asc_desc ∧
  Readme.op_le (view 2 0) (view 2 2) pairs = Ok true pairs ∧
  lex_le (contents pairs (view 2 0)) (contents pairs (view 2 2)) = false ∧
  Readme.op_ge (view 2 2) (view 2 0) pairs = Ok true pairs ∧
  lex_ge (contents pairs (view 2 2)) (contents pairs (view 2 0)) = false.
Proof. by vm_compute. Qed.

(** C4. [empty()] is meant to be [false] for every view. On the five ints
    of the README example array_wrapper.hpp returns [N] converted to [bool],
    which is [true]; the README header returns [N == 0], which is [false]. *)
Theorem hpp_empty_is_true :
  Hpp.empty (view 5 0) = true ∧ Readme.empty (view 5 0) = false.
Proof. done. Qed.

(** ** Element access *)
Section Access.
Context {T : Type} `{!ValueType T} {N : nat}.
Implicit Types (s : state T) (this other : Array_Wrapper T N) (arr : std_array T N).

(** C3. In both versions [at(pos)] returns the reference to slot [pos] when
    [pos < N]; otherwise it throws [std::out_of_range] with the message
    "Out of range: " followed by [pos] in decimal, and the store is as it
    was. No other member function throws: those that touch the store are
    listed, the others are pure. [out_of_range] is the only constructor of
    [exn]. *)
Theorem at_is_the_only_thrower this other arr (val : T) (pos : nat) s :
  (Hpp.at_ this pos s =
     if decide (pos < N) then Ok (m_array this + pos) s
     else Throw (out_of_range ("Out of range: " +:+ pretty pos)) s) ∧
  (Readme.at_ this pos s =
     if decide (pos < N) then Ok (m_array this + pos) s
     else Throw (out_of_range ("Out of range: " +:+ pretty pos)) s) ∧
  no_throw (Hpp.fill this val) ∧
  no_throw (Hpp.swap this other) ∧
  no_throw (Hpp.swap_array this arr) ∧
  no_throw (Readme.op_eq this other) ∧
  no_throw (Readme.op_ne this other) ∧
  no_throw (Readme.op_lt this other) ∧
  no_throw (Readme.op_gt this other) ∧
  no_throw (Readme.op_le this other) ∧
  no_throw (Readme.op_ge this other) ∧
  no_throw (Readme.op_assign this other) ∧
  no_throw (Readme.op_assign_array this arr) ∧
  no_throw (Readme.op_move_assign this other) ∧
  no_throw (Readme.op_move_assign_array this arr) ∧
  no_throw (Readme.fill this val) ∧
  no_throw (Readme.swap this other) ∧
  no_throw (Readme.swap_array this arr).
Proof.
  split; [apply hpp_at_spec|]. split; [apply readme_at_spec|].
  unfold Hpp.fill, Hpp.swap, Hpp.swap_array, Readme.op_lt, Readme.op_gt,
    Readme.op_le, Readme.op_ge, Readme.op_assign, Readme.op_assign_array,
    Readme.op_move_assign, Readme.op_move_assign_array, Readme.fill,
    Readme.swap, Readme.swap_array.
  repeat split; repeat no_throw_step.
Qed.

(** C9. For a valid index, [at] and [operator[]] return the same reference,
    and reading through either gives the same value. *)
Theorem checked_and_unchecked_agree this (pos : nat) s :
  pos < N →
  Hpp.at_ this pos s = Ok (Hpp.op_index this pos) s ∧
  Readme.at_ this pos s = Ok (Readme.op_index this pos) s ∧
  (Hpp.at_ this pos ≫= load) s = load (Hpp.op_index this pos) s ∧
  (Readme.at_ this pos ≫= load) s = load (Readme.op_index this pos) s.
Proof.
  intros Hpos.
  assert (Hpp.at_ this pos s = Ok (Hpp.op_index this pos) s) as E1.
  { rewrite hpp_at_spec. by rewrite decide_True. }
  assert (Readme.at_ this pos s = Ok (Readme.op_index this pos) s) as E2.
  { rewrite readme_at_spec. by rewrite decide_True. }
  repeat split; try done.
  - by rewrite (bind_Ok _ _ _ _ _ E1).
  - by rewrite (bind_Ok _ _ _ _ _ E2).
Qed.
End Access.

Lemma checked_and_unchecked_agree_witness :
  2 < 5 ∧ (Readme.at_ (view 5 0) 2 ≫= load) arr = Ok 5%Z arr.
Proof.
  split; [lia|].
  rewrite (proj2 (proj2 (proj2 (checked_and_unchecked_agree (view 5 0) 2 arr ltac:(lia))))).
  reflexivity.
Defined.

(** ** Assignment, fill and swap *)
Section Mutation.
Context {T : Type} `{!ValueType T} {N : nat}.
Implicit Types (s : state T) (this other : Array_Wrapper T N) (arr : std_array T N).

(** The four assignment operators of the README header write through:
    the object returned is [this], whose [m_array] is what it was, and its
    storage then holds what the source held. The operators are defined when
    the destination does not begin inside a source it has to be copied from,
    which is the precondition of [std::copy] and [std::move]. *)
Theorem assignment_writes_through this other arr s :
  valid s this → valid s other → valid_array s arr →
  contents s this = contents s other ∨
    ¬ (m_array other ≤ m_array this < m_array other + N) →
  m_array this = data arr ∨
    ¬ (data arr ≤ m_array this < data arr + N) →
  (∃ s', Readme.op_assign this other s = Ok this s' ∧
         contents s' this = contents s other) ∧
  (∃ s', Readme.op_move_assign this other s = Ok this s' ∧
         contents s' this = contents s other) ∧
  (∃ s', Readme.op_assign_array this arr s = Ok this s' ∧
         contents s' this = array_contents s arr) ∧
  (∃ s', Readme.op_move_assign_array this arr s = Ok this s' ∧
         contents s' this = array_contents s arr).
Proof.
  intros H1 H2 H3 Hview Harr.
  assert (length (contents s other) = N) as Hlen by by apply contents_length.
  assert (length (array_contents s arr) = N) as Hlen' by by apply window_length.
  repeat split.
  - destruct (decide (contents s this = contents s other)) as [E|E].
    + exists s. split; [by apply readme_op_assign_same|done].
    + destruct (readme_op_assign_differ this other s) as (log & _ & ->);
        try done; [by destruct Hview|].
      eexists. split; [done|]. by apply (contents_inserts_same _ _ _ _ s).
  - destruct (decide (contents s this = contents s other)) as [E|E].
    + exists s. split; [by apply readme_op_move_assign_same|done].
    + destruct (readme_op_move_assign_differ this other s) as (log & _ & ->);
        try done; [by destruct Hview|].
      eexists. split; [done|].
      apply (contents_inserts_same _ _ _ _ s); [done|done|].
      by rewrite length_inserts.
  - destruct (decide (m_array this = data arr)) as [E|E].
    + exists s. split; [by apply readme_op_assign_array_same|].
      unfold contents, array_contents. by rewrite E.
    + destruct (readme_op_assign_array_differ this arr s) as (log & _ & ->);
        try done; [destruct Harr; [done|lia]|].
      eexists. split; [done|]. by apply (contents_inserts_same _ _ _ _ s).
  - destruct (decide (m_array this = data arr)) as [E|E].
    + exists s. split; [by apply readme_op_move_assign_array_same|].
      unfold contents, array_contents. by rewrite E.
    + destruct (readme_op_move_assign_array_differ this arr s) as (log & _ & ->);
        try done; [destruct Harr; [done|lia]|].
      eexists. split; [done|].
      apply (contents_inserts_same _ _ _ _ s); [done|done|].
      by rewrite length_inserts.
Qed.

(** What decides the skip in the README header. Copy assignment, move assignment and
    swap between two views assign no element exactly when the contents of
    the two views compare equal, which they do in particular when the two
    views are of the same storage. *)
Theorem skip_iff_equal_contents this other s :
  0 < N → valid s this → valid s other →
  (skips (Readme.op_assign this other) s ↔ contents s this = contents s other) ∧
  (skips (Readme.op_move_assign this other) s ↔ contents s this = contents s other) ∧
  (skips (Readme.swap this other) s ↔ contents s this = contents s other).
Proof.
  intros HN H1 H2. repeat split.
  - intros [a Ha]. destruct (decide (contents s this = contents s other)) as [|E]; [done|].
    destruct (decide (m_array other ≤ m_array this < m_array other + N)).
    + by rewrite readme_op_assign_undefined in Ha.
    + destruct (readme_op_assign_differ this other s) as (log & Hlog & Hop); try done.
      rewrite Hop in Ha. injection Ha as _ Ha.
      by apply grown_state_ne in Ha; [|lia].
  - intros E. exists this. by apply readme_op_assign_same.
  - intros [a Ha]. destruct (decide (contents s this = contents s other)) as [|E]; [done|].
    destruct (decide (m_array other ≤ m_array this < m_array other + N)).
    + by rewrite readme_op_move_assign_undefined in Ha.
    + destruct (readme_op_move_assign_differ this other s) as (log & Hlog & Hop); try done.
      rewrite Hop in Ha. injection Ha as _ Ha.
      by apply grown_state_ne in Ha; [|lia].
  - intros E. exists this. by apply readme_op_move_assign_same.
  - intros [a Ha]. destruct (decide (contents s this = contents s other)) as [|E]; [done|].
    destruct (decide (m_array this < m_array other + N ∧ m_array other < m_array this + N))
      as [[]|].
    + by rewrite readme_swap_undefined in Ha.
    + destruct (readme_swap_differ this other s) as (log & Hlog & Hop); try done; [lia|].
      rewrite Hop in Ha. injection Ha as _ Ha.
      by apply grown_state_ne in Ha; [|lia].
  - intros E. exists (this, other). by apply readme_swap_same.
Qed.

(** Views of one storage hold the same contents, so the three operations
    skip on them. *)
Lemma same_storage_same_contents this other s :
  m_array this = m_array other → contents s this = contents s other.
Proof. unfold contents. by intros ->. Qed.

(** The members that compare pointers skip exactly on the same storage. *)
Lemma hpp_swap_skips_iff_same_storage this other s :
  0 < N → valid s this → valid s other →
  skips (Hpp.swap this other) s ↔ m_array this = m_array other.
Proof.
  intros HN H1 H2. split.
  - intros [a Ha]. destruct (decide (m_array this = m_array other)) as [|E]; [done|].
    destruct (decide (m_array this < m_array other + N ∧ m_array other < m_array this + N))
      as [[]|].
    + by rewrite hpp_swap_undefined in Ha.
    + destruct (hpp_swap_differ this other s) as (log & Hlog & Hop); try done; [lia|].
      rewrite Hop in Ha. injection Ha as _ Ha.
      by apply grown_state_ne in Ha; [|lia].
  - intros E. exists (this, other). by apply hpp_swap_same.
Qed.

(** C7. In both versions [swap] over two storages that do not overlap leaves
    each holding what the other held, over one storage it leaves the store as
    it was, and the two objects it returns are the views it was given. *)
Theorem swap_exchanges_contents this other s :
  valid s this → valid s other →
  (m_array this + N ≤ m_array other ∨ m_array other + N ≤ m_array this →
   (∃ s', Hpp.swap this other s = Ok (this, other) s' ∧
          contents s' this = contents s other ∧
          contents s' other = contents s this) ∧
   (∃ s', Readme.swap this other s = Ok (this, other) s' ∧
          contents s' this = contents s other ∧
          contents s' other = contents s this)) ∧
  (m_array this = m_array other →
   Hpp.swap this other s = Ok (this, other) s ∧
   Readme.swap this other s = Ok (this, other) s).
Proof.
  intros H1 H2.
  assert (length (contents s this) = N) as Hlen1 by by apply contents_length.
  assert (length (contents s other) = N) as Hlen2 by by apply contents_length.
  assert (∀ log,
    m_array this + N ≤ m_array other ∨ m_array other + N ≤ m_array this →
    let s' := State (list_inserts (m_array other) (contents s this)
                (list_inserts (m_array this) (contents s other) (cells s)))
                (log ++ stores s) in
    contents s' this = contents s other ∧ contents s' other = contents s this)
    as Hswapped.
  { intros log Hd s'. split.
    - unfold contents at 1. simpl.
      rewrite window_inserts_outside by (rewrite Hlen1; lia).
      by apply window_inserts_same.
    - apply (contents_inserts_same _ _ _ _ s); [done|done|].
      by rewrite length_inserts. }
  split.
  - intros Hd. split.
    + destruct (decide (m_array this = m_array other)) as [E|E].
      * exists s. split; [by apply hpp_swap_same|].
        by rewrite (same_storage_same_contents _ _ _ E).
      * destruct (hpp_swap_differ this other s) as (log & _ & ->); try done.
        eexists. split; [done|]. by apply Hswapped.
    + destruct (decide (contents s this = contents s other)) as [E|E].
      * exists s. split; [by apply readme_swap_same|]. by rewrite E.
      * destruct (readme_swap_differ this other s) as (log & _ & ->); try done.
        eexists. split; [done|]. by apply Hswapped.
  - intros E. split; [by apply hpp_swap_same|].
    apply readme_swap_same; try done. by apply same_storage_same_contents.
Qed.

(** C8. In both versions [fill(val)] assigns [val] to each of the N slots in
    turn, whatever they held, so the storage then holds N copies of [val];
    a second [fill(val)] leaves the cells as the first left them. *)
Theorem fill_writes_every_slot this (val : T) s :
  valid s this →
  ∃ s' s'',
    Hpp.fill this val s = Ok this s' ∧
    Readme.fill this val s = Ok this s' ∧
    stores s' = reverse ((., val) <$> seq (m_array this) N) ++ stores s ∧
    contents s' this = replicate N val ∧
    Hpp.fill this val s' = Ok this s'' ∧
    Readme.fill this val s' = Ok this s'' ∧
    cells s'' = cells s'.
Proof.
  intros Hv.
  pose (log := reverse ((., val) <$> seq (m_array this) N)).
  pose (s1 := State (list_inserts (m_array this) (replicate N val) (cells s))
                (log ++ stores s)).
  assert (valid s1 this) as Hv1.
  { unfold valid. simpl. by rewrite length_inserts. }
  exists s1, (State (list_inserts (m_array this) (replicate N val) (cells s1))
                (log ++ stores s1)).
  split; [exact (fill_spec this val s Hv)|].
  split; [exact (fill_spec this val s Hv)|].
  split; [done|].
  split.
  { apply (contents_inserts_same _ _ _ _ s); [done| |done].
    by rewrite length_replicate. }
  split; [exact (fill_spec this val s1 Hv1)|].
  split; [exact (fill_spec this val s1 Hv1)|].
  simpl. apply list_eq. intros p.
  rewrite !list_lookup_inserts_decide, length_inserts.
  by case_decide.
Qed.
End Mutation.

(** C5. Assignment between views is meant to copy the elements of the source
    into the storage the view refers to and never to rebind the view.
    array_wrapper.hpp declares no [operator=]: with [{1, 2, 3}] at address 0 and
    [{3, 2, 1}] at address 3, its implicitly-declared copy and move assignment
    turn the view of address 0 into a view of address 3 and assign no element,
    so the storage at 0 still holds [{1, 2, 3}]. On the same input the README
    header returns the view of address 0, whose storage then holds
    [{3, 2, 1}]. *)
Theorem hpp_assignment_rebinds :
  m_array (Hpp.op_assign (view 3 0) (view 3 3)) = 3 ∧
  m_array (Hpp.op_move_assign (view 3 0) (view 3 3)) = 3 ∧
  contents asc_desc (view 3 0) = [1; 2; 3]%Z ∧
  contents asc_desc (view 3 3) = [3; 2; 1]%Z ∧
  ∃ s', Readme.op_assign (view 3 0) (view 3 3) asc_desc = Ok (view 3 0) s' ∧
        contents s' (view 3 0) = [3; 2; 1]%Z.
Proof.
  repeat split.
  exists (State [3; 2; 1; 3; 2; 1]%Z [(2, 1%Z); (1, 2%Z); (0, 3%Z)]).
  split; by vm_compute.
Qed.

(** C6. Assignment and swap between views are meant to skip the element-wise
    operation exactly when the two views are of the same storage, told by the
    identity of the storage. The two arrays of [twins] are different storages
    with equal contents. Copy assignment, move assignment and swap of the
    README header test [*this != other], which compares contents, and assign
    no element there. The members that test the pointers do not skip on the
    same input: the README overloads taking a [std::array] and [swap] of
    array_wrapper.hpp. *)
Theorem readme_skips_on_equal_contents :
  m_array (view 3 0) ≠ m_array (view 3 3) ∧
  Readme.op_assign (view 3 0) (view 3 3) twins = Ok (view 3 0) twins ∧
  Readme.op_move_assign (view 3 0) (view 3 3) twins = Ok (view 3 0) twins ∧
  Readme.swap (view 3 0) (view 3 3) twins = Ok (view 3 0, view 3 3) twins ∧
  ¬ skips (Readme.op_assign_array (view 3 0) (make_array 3)) twins ∧
  ¬ skips (Readme.op_move_assign_array (view 3 0) (make_array 3)) twins ∧
  ¬ skips (Readme.swap_array (view 3 0) (make_array 3)) twins ∧
  ¬ skips (Hpp.swap (view 3 0) (view 3 3)) twins.
Proof.
  split; [discriminate|].
  do 3 (split; [by vm_compute|]).
  repeat split; intros [r Hr]; vm_compute in Hr; discriminate Hr.
Qed.

Lemma assignment_writes_through_witness :
  valid asc_desc (view 3 0) ∧ valid asc_desc (view 3 3) ∧
  ∃ s', Readme.op_assign (view 3 0) (view 3 3) asc_desc = Ok (view 3 0) s' ∧
        contents s' (view 3 0) = [3; 2; 1]%Z.
Proof.
  assert (valid asc_desc (view 3 0)) as H1 by (unfold valid; simpl; lia).
  assert (valid asc_desc (view 3 3)) as H2 by (unfold valid; simpl; lia).
  assert (valid_array asc_desc (make_array (N:=3) 3)) as H3
    by (unfold valid_array; simpl; lia).
  split; [exact H1|]. split; [exact H2|].
  destruct (assignment_writes_through (view 3 0) (view 3 3) (make_array 3) asc_desc
              H1 H2 H3) as [[s' [Hop Hs']] _].
  - right. simpl. lia.
  - right. simpl. lia.
  - exists s'. split; [exact Hop|]. rewrite Hs'. reflexivity.
Defined.

(** The two arrays of [twins] are different storages with the
    same contents, and copy assignment, move assignment and swap between
    views of them assign no element. *)
Lemma skip_iff_same_storage_counterexample :
  ¬ (skips (Readme.op_assign (view 3 0) (view 3 3)) twins ↔
     m_array (view 3 0) = m_array (view 3 3)) ∧
  ¬ (skips (Readme.op_move_assign (view 3 0) (view 3 3)) twins ↔
     m_array (view 3 0) = m_array (view 3 3)) ∧
  ¬ (skips (Readme.swap (view 3 0) (view 3 3)) twins ↔
     m_array (view 3 0) = m_array (view 3 3)).
Proof.
  repeat split; intros [Hskip _];
    (assert (m_array (view 3 0) = m_array (view 3 3)) as E
       by (apply Hskip; eexists; reflexivity));
    discriminate E.
Qed.

Lemma skip_iff_equal_contents_witness :
  0 < 3 ∧ valid twins (view 3 0) ∧ valid twins (view 3 3) ∧
  skips (Readme.op_assign (view 3 0) (view 3 3)) twins ∧
  ¬ skips (Readme.op_assign (view 3 0) (view 3 3)) asc_desc.
Proof.
  assert (valid twins (view 3 0)) as H1 by (unfold valid; simpl; lia).
  assert (valid twins (view 3 3)) as H2 by (unfold valid; simpl; lia).
  assert (valid asc_desc (view 3 0)) as H3 by (unfold valid; simpl; lia).
  assert (valid asc_desc (view 3 3)) as H4 by (unfold valid; simpl; lia).
  split; [lia|]. split; [exact H1|]. split; [exact H2|]. split.
  - apply (skip_iff_equal_contents (view 3 0) (view 3 3) twins ltac:(lia) H1 H2).
    reflexivity.
  - intros Hskip.
    apply (skip_iff_equal_contents (view 3 0) (view 3 3) asc_desc ltac:(lia) H3 H4)
      in Hskip.
    discriminate Hskip.
Defined.

Lemma swap_exchanges_contents_witness :
  valid asc_desc (view 3 0) ∧ valid asc_desc (view 3 3) ∧
  (∃ s', Readme.swap (view 3 0) (view 3 3) asc_desc = Ok (view 3 0, view 3 3) s' ∧
         contents s' (view 3 0) = [3; 2; 1]%Z ∧
         contents s' (view 3 3) = [1; 2; 3]%Z) ∧
  Hpp.swap (view 3 0) (view 3 0) asc_desc = Ok (view 3 0, view 3 0) asc_desc.
Proof.
  assert (valid asc_desc (view 3 0)) as H1 by (unfold valid; simpl; lia).
  assert (valid asc_desc (view 3 3)) as H2 by (unfold valid; simpl; lia).
  split; [exact H1|]. split; [exact H2|]. split.
  - apply (swap_exchanges_contents (view 3 0) (view 3 3) asc_desc H1 H2).
    left. simpl. lia.
  - apply (swap_exchanges_contents (view 3 0) (view 3 0) asc_desc H1 H1).
    reflexivity.
Defined.

Lemma fill_writes_every_slot_witness :
  valid arr (view 5 0) ∧
  ∃ s' s'',
    Hpp.fill (view 5 0) 0%Z arr = Ok (view 5 0) s' ∧
    Readme.fill (view 5 0) 0%Z arr = Ok (view 5 0) s' ∧
    stores s' = [(4, 0%Z); (3, 0%Z); (2, 0%Z); (1, 0%Z); (0, 0%Z)] ∧
    contents s' (view 5 0) = [0; 0; 0; 0; 0]%Z ∧
    Hpp.fill (view 5 0) 0%Z s' = Ok (view 5 0) s'' ∧
    Readme.fill (view 5 0) 0%Z s' = Ok (view 5 0) s'' ∧
    cells s'' = cells s'.
Proof.
  assert (valid arr (view 5 0)) as H1 by (unfold valid; simpl; lia).
  split; [exact H1|].
  exact (fill_writes_every_slot (view 5 0) 0%Z arr H1).
Defined.

(** ** Iteration *)
Section Iteration.
Context {T : Type} {N : nat}.
Implicit Types (s : state T) (this : Array_Wrapper T N).

(** C10. In both versions the loop from [begin()] to [end()] visits the N
    slots of the storage in order and the loop from [rbegin()] to [rend()]
    visits the same slots in the opposite order. What is visited are
    references into the store: read in any state of the store, they give
    what the storage holds in that state. *)
Theorem reverse_traversal_is_reversed_forward this (fuel : nat) s :
  N < fuel → valid s this →
  let refs := seq (m_array this) N in
  Std.for_each fuel (Hpp.begin this) (Hpp.end_ this) = Some refs ∧
  Std.rfor_each fuel (Hpp.rbegin this) (Hpp.rend this) = Some (reverse refs) ∧
  Std.for_each fuel (Readme.begin this) (Readme.end_ this) = Some refs ∧
  Std.rfor_each fuel (Readme.rbegin this) (Readme.rend this) = Some (reverse refs) ∧
  read_all refs s = Ok (contents s this) s ∧
  read_all (reverse refs) s = Ok (reverse (contents s this)) s.
Proof.
  intros Hfuel Hv refs.
  pose proof (window_refs (m_array this) N (cells s) Hv) as Hrefs.
  repeat split.
  - by apply for_each_spec.
  - by apply rfor_each_spec.
  - by apply for_each_spec.
  - by apply rfor_each_spec.
  - by apply read_all_spec.
  - by apply read_all_spec, Forall2_reverse.
Qed.
End Iteration.

Lemma reverse_traversal_is_reversed_forward_witness :
  5 < 6 ∧ valid arr (view 5 0) ∧
  Std.for_each 6 (Readme.begin (view 5 0)) (Readme.end_ (view 5 0)) =
    Some [0; 1; 2; 3; 4] ∧
  Std.rfor_each 6 (Readme.rbegin (view 5 0)) (Readme.rend (view 5 0)) =
    Some [4; 3; 2; 1; 0] ∧
  read_all [4; 3; 2; 1; 0] arr = Ok [9; 7; 5; 3; 1]%Z arr.
Proof.
  assert (valid arr (view 5 0)) as H1 by (unfold valid; simpl; lia).
  split; [lia|]. split; [exact H1|].
  pose proof (reverse_traversal_is_reversed_forward (view 5 0) 6 arr ltac:(lia) H1)
    as (_ & _ & Hf & Hr & _ & Hv).
  split; [exact Hf|]. split; [exact Hr|]. exact Hv.
Defined.

(** * Further properties of the two headers *)

(** ** Cells of a store after one or two block writes *)
Section Blocks.
Context {T : Type}.
Implicit Types (l k : list T) (a b n : nat).

Lemma inserts_window_id a n l :
  a + n ≤ length l → list_inserts a (window a n l) l = l.
Proof.
  intros Hlen. apply list_eq. intros p.
  rewrite list_lookup_inserts_decide, window_length by done.
  case_decide as Hp; [|done].
  rewrite window_lookup by lia. f_equal. lia.
Qed.

Lemma swap_back_cells a b n l :
  a + n ≤ length l → b + n ≤ length l → a + n ≤ b ∨ b + n ≤ a →
  list_inserts b (window b n l)
    (list_inserts a (window a n l)
       (list_inserts b (window a n l) (list_inserts a (window b n l) l))) = l.
Proof.
  intros Ha Hb Hd. apply list_eq. intros p.
  rewrite !list_lookup_inserts_decide, !length_inserts, !window_length by done.
  repeat case_decide; try lia; try done.
  - rewrite window_lookup by lia. f_equal. lia.
  - rewrite window_lookup by lia. f_equal. lia.
Qed.

Lemma swapped_windows a b n l :
  a + n ≤ length l → b + n ≤ length l → a + n ≤ b ∨ b + n ≤ a →
  let l' := list_inserts b (window a n l) (list_inserts a (window b n l) l) in
  window a n l' = window b n l ∧ window b n l' = window a n l.
Proof.
  intros Ha Hb Hd l'. unfold l'. split.
  - rewrite window_inserts_outside by (rewrite window_length by done; lia).
    apply window_inserts_same; [by apply window_length|done].
  - apply window_inserts_same; [by apply window_length|].
    by rewrite length_inserts.
Qed.
End Blocks.

Section MoreAccess.
Context {T : Type} `{!ValueType T} {N : nat}.
Implicit Types (s : state T) (this other : Array_Wrapper T N).

Lemma contents_lookup this s pos :
  valid s this → pos < N →
  ∃ v, contents s this !! pos = Some v ∧ cells s !! (m_array this + pos) = Some v.
Proof.
  intros Hv Hpos. unfold contents. rewrite window_lookup by done.
  destruct (lookup_lt_is_Some_2 (cells s) (m_array this + pos)) as [v Hv'];
    [unfold valid in Hv; lia|].
  by exists v.
Qed.

(** X1. On a view that lies inside the store, reading through [at(pos)]
    never has undefined behaviour: it yields element [pos] of the contents
    when there is one and throws the range error otherwise, in both
    versions. *)
Theorem checked_read_is_defined this (pos : nat) s :
  valid s this →
  let read := match contents s this !! pos with
              | Some v => Ok v s
              | None => Throw (out_of_range ("Out of range: " +:+ pretty pos)) s
              end in
  (Hpp.at_ this pos ≫= load) s = read ∧
  (Readme.at_ this pos ≫= load) s = read.
Proof.
  intros Hv read. unfold read.
  destruct (decide (pos < N)) as [Hpos|Hpos].
  - destruct (contents_lookup this s pos Hv Hpos) as (v & -> & Hc).
    split.
    + erewrite bind_Ok; [by apply load_Ok|].
      rewrite hpp_at_spec. by rewrite decide_True.
    + erewrite bind_Ok; [by apply load_Ok|].
      rewrite readme_at_spec. by rewrite decide_True.
  - rewrite (proj2 (lookup_ge_None _ _)) by (rewrite contents_length by done; lia).
    split.
    + apply bind_Throw. rewrite hpp_at_spec. by rewrite decide_False.
    + apply bind_Throw. rewrite readme_at_spec. by rewrite decide_False.
Qed.

(** X2. A reference that [at] returns is the address of one of the N slots
    of the view, and the store is left as it was. *)
Theorem checked_reference_is_in_bounds this (pos : nat) s r s' :
  Hpp.at_ this pos s = Ok r s' ∨ Readme.at_ this pos s = Ok r s' →
  m_array this ≤ r < m_array this + N ∧ r = m_array this + pos ∧ s' = s.
Proof.
  intros [E|E]; [rewrite hpp_at_spec in E|rewrite readme_at_spec in E];
    destruct (decide (pos < N)); try done;
    injection E as <- <-; repeat split; lia.
Qed.

(** X3. Two different out-of-range indexes are reported by two different
    exceptions: the message carries the index. *)
Theorem range_errors_differ this (pos pos' : nat) s :
  N ≤ pos → pos ≠ pos' →
  Hpp.at_ this pos s ≠ Hpp.at_ this pos' s ∧
  Readme.at_ this pos s ≠ Readme.at_ this pos' s.
Proof.
  intros Hpos Hne.
  split; [rewrite !hpp_at_spec|rewrite !readme_at_spec];
    rewrite decide_False by lia;
    (destruct (decide (pos' < N)); [done|]);
    intros [= E]; apply Hne; by apply (inj pretty).
Qed.

(** X4. For N > 0, [front()] and [back()] are the references [at(0)] and
    [at(N - 1)] return, and on a view inside the store they read the first
    and the last element of the contents. *)
Theorem front_back_are_first_and_last this s :
  0 < N → valid s this →
  Hpp.at_ this 0 s = Ok (Hpp.front this) s ∧
  Hpp.at_ this (N - 1) s = Ok (Hpp.back this) s ∧
  Readme.at_ this 0 s = Ok (Readme.front this) s ∧
  Readme.at_ this (N - 1) s = Ok (Readme.back this) s ∧
  (∃ x, head (contents s this) = Some x ∧
        load (Hpp.front this) s = Ok x s ∧ load (Readme.front this) s = Ok x s) ∧
  (∃ y, last (contents s this) = Some y ∧
        load (Hpp.back this) s = Ok y s ∧ load (Readme.back this) s = Ok y s).
Proof.
  intros HN Hv.
  rewrite ?hpp_at_spec, ?readme_at_spec.
  rewrite !decide_True by lia.
  repeat split.
  - destruct (contents_lookup this s 0 Hv HN) as (x & Hx & Hc).
    exists x. rewrite head_lookup.
    split; [done|]. split; by apply load_Ok.
  - destruct (contents_lookup this s (N - 1) Hv ltac:(lia)) as (y & Hy & Hc).
    exists y. rewrite last_lookup, contents_length by done.
    replace (Init.Nat.pred N) with (N - 1) by lia.
    split; [done|]. split; by apply load_Ok.
Qed.

(** X5. A view bound to an array and a view bound to the decayed pointer to
    it refer to the same slots: [begin()] and [data()] of both are the address
    of the array, and an element assigned through [operator[]] of the first
    is what [at] of the second then reads, the other slots reading as
    before. *)
Theorem views_alias_the_array (array_ : addr) (i j : nat) (v : T) s
    (static_assert : 0 < N) :
  let wrap1 : Array_Wrapper T N := Readme.from_array array_ static_assert in
  let wrap2 : Array_Wrapper T N := Readme.from_pointer array_ static_assert in
  valid s wrap1 → i < N → j < N →
  Readme.begin wrap1 = array_ ∧ Readme.begin wrap2 = array_ ∧
  Readme.data wrap1 = array_ ∧ Readme.data wrap2 = array_ ∧
  Hpp.begin (Hpp.from_array array_ : Array_Wrapper T N) =
    Hpp.begin (Hpp.from_pointer array_ : Array_Wrapper T N) ∧
  ∃ s', store (Readme.op_index wrap1 i) v s = Ok () s' ∧
        contents s' wrap2 = <[i:=v]> (contents s wrap2) ∧
        ∀ old, contents s wrap2 !! j = Some old →
               (Readme.at_ wrap2 j ≫= load) s' =
               Ok (if decide (i = j) then v else old) s'.
Proof.
  intros wrap1 wrap2 Hv Hi Hj. unfold valid in Hv. simpl in Hv.
  repeat split.
  exists (State (<[array_ + i:=v]> (cells s)) ((array_ + i, v) :: stores s)).
  split; [apply store_Ok; unfold Readme.op_index; simpl; lia|].
  assert (contents (State (<[array_ + i:=v]> (cells s))
                      ((array_ + i, v) :: stores s)) wrap2 =
          <[i:=v]> (contents s wrap2)) as Hc.
  { apply list_eq. intros p. unfold contents. simpl.
    destruct (decide (p < N)).
    - rewrite window_lookup, !list_lookup_insert by done.
      rewrite window_lookup, window_length by (done || lia).
      repeat case_decide; try done; lia.
    - rewrite (proj2 (lookup_ge_None _ _)).
      2:{ rewrite window_length; [lia|]. rewrite length_insert. lia. }
      symmetry. apply lookup_ge_None.
      rewrite length_insert, window_length; lia. }
  split; [done|].
  intros old Hold.
  erewrite bind_Ok; [|rewrite readme_at_spec; by rewrite decide_True].
  apply load_Ok. simpl.
  unfold contents in Hold. rewrite window_lookup in Hold by done.
  rewrite list_lookup_insert. repeat case_decide; try done; lia.
Qed.
End MoreAccess.

Section MoreMutation.
Context {T : Type} `{!ValueType T} {N : nat}.
Implicit Types (s : state T) (this other : Array_Wrapper T N) (arr : std_array T N).

Lemma swap_array_same this arr s :
  m_array this = data arr → Hpp.swap_array this arr s = Ok (this, arr) s.
Proof.
  intros E. unfold Hpp.swap_array.
  by rewrite bool_decide_eq_false_2 by naive_solver.
Qed.

Lemma swap_array_differ this arr s :
  valid s this → valid_array s arr → m_array this ≠ data arr →
  m_array this + N ≤ data arr ∨ data arr + N ≤ m_array this →
  ∃ log, length log = 2 * N ∧
    Hpp.swap_array this arr s =
    Ok (this, arr)
       (State (list_inserts (data arr) (contents s this)
                 (list_inserts (m_array this) (array_contents s arr) (cells s)))
              (log ++ stores s)).
Proof.
  intros H1 H2 E Hd. unfold Hpp.swap_array.
  rewrite bool_decide_eq_true_2 by done.
  destruct (swap_ranges_spec (m_array this) N (data arr) s)
    as (log & Hlog & Hc); try done.
  exists log. split; [done|].
  unfold Hpp.begin, Hpp.end_, mbind, M_bind. by rewrite Hc.
Qed.

(** X6. [fill] changes no cell outside the N slots of the view and does not
    change the size of the store; inside the view every cell then holds the
    value. *)
Theorem fill_touches_only_its_slots this (val : T) s :
  valid s this →
  ∃ s', Hpp.fill this val s = Ok this s' ∧ Readme.fill this val s = Ok this s' ∧
        length (cells s') = length (cells s) ∧
        ∀ p, cells s' !! p =
             if decide (m_array this ≤ p < m_array this + N) then Some val
             else cells s !! p.
Proof.
  intros Hv. eexists.
  split; [exact (fill_spec this val s Hv)|].
  split; [exact (fill_spec this val s Hv)|].
  simpl. split; [by rewrite length_inserts|].
  intros p. rewrite list_lookup_inserts_decide, length_replicate.
  unfold valid in Hv.
  repeat case_decide; try done; try lia.
  apply lookup_replicate_2. lia.
Qed.

(** X7. [swap] with a [std::array], the same in both versions: when the
    array and the viewed storage do not overlap each ends up holding what the
    other held; when the array is the viewed storage the store is left as it
    was. The view and the array returned are the ones passed in. *)
Theorem swap_with_array_exchanges_contents this arr s :
  valid s this → valid_array s arr →
  m_array this = data arr ∨
    m_array this + N ≤ data arr ∨ data arr + N ≤ m_array this →
  ∃ s', Hpp.swap_array this arr s = Ok (this, arr) s' ∧
        Readme.swap_array this arr s = Ok (this, arr) s' ∧
        contents s' this = array_contents s arr ∧
        array_contents s' arr = contents s this ∧
        (m_array this = data arr → s' = s).
Proof.
  intros H1 H2 Hd.
  destruct (decide (m_array this = data arr)) as [E|E].
  - exists s.
    split; [by apply swap_array_same|]. split; [by apply swap_array_same|].
    unfold contents, array_contents. by rewrite E.
  - destruct Hd as [|Hd]; [done|].
    destruct (swap_array_differ this arr s) as (log & _ & Hop); try done.
    eexists. split; [exact Hop|]. split; [exact Hop|].
    unfold contents, array_contents. simpl.
    destruct (swapped_windows (m_array this) (data arr) N (cells s)) as [Ha Hb];
      try done.
Qed.

(** X8. Swapping two views of storages that do not overlap twice puts every
    cell of the store back, in both versions. *)
Theorem swap_twice_restores this other s :
  valid s this → valid s other →
  m_array this + N ≤ m_array other ∨ m_array other + N ≤ m_array this →
  (∃ s1 s2, Hpp.swap this other s = Ok (this, other) s1 ∧
            Hpp.swap this other s1 = Ok (this, other) s2 ∧
            cells s2 = cells s) ∧
  (∃ s1 s2, Readme.swap this other s = Ok (this, other) s1 ∧
            Readme.swap this other s1 = Ok (this, other) s2 ∧
            cells s2 = cells s).
Proof.
  intros H1 H2 Hd.
  destruct (swapped_windows (m_array this) (m_array other) N (cells s))
    as [Ha Hb]; try done.
  split.
  - destruct (decide (m_array this = m_array other)) as [E|E].
    + exists s, s. repeat split; by apply hpp_swap_same.
    + destruct (hpp_swap_differ this other s) as (log & _ & Hop); try done.
      eexists.
      edestruct (hpp_swap_differ this other) as (log' & _ & Hop'); last first.
      { eexists. split; [exact Hop|]. split; [exact Hop'|].
        unfold contents. simpl. rewrite Ha, Hb.
        by apply swap_back_cells. }
      all: unfold valid; simpl; rewrite ?length_inserts; done.
  - destruct (decide (contents s this = contents s other)) as [E|E].
    + exists s, s. repeat split; by apply readme_swap_same.
    + destruct (readme_swap_differ this other s) as (log & _ & Hop); try done.
      eexists.
      edestruct (readme_swap_differ this other) as (log' & _ & Hop'); last first.
      { eexists. split; [exact Hop|]. split; [exact Hop'|].
        unfold contents. simpl. rewrite Ha, Hb.
        by apply swap_back_cells. }
      all: unfold valid, contents; simpl; rewrite ?length_inserts; try done.
      rewrite Ha, Hb. unfold contents in E. congruence.
Qed.

(** X9. The two versions of [swap] leave the same cells: where the README
    header skips because the contents are equal, array_wrapper.hpp exchanges
    equal elements. *)
Theorem swap_versions_agree this other s :
  valid s this → valid s other →
  m_array this + N ≤ m_array other ∨ m_array other + N ≤ m_array this →
  ∃ s1 s2, Hpp.swap this other s = Ok (this, other) s1 ∧
           Readme.swap this other s = Ok (this, other) s2 ∧
           cells s1 = cells s2.
Proof.
  intros H1 H2 Hd.
  destruct (decide (contents s this = contents s other)) as [E|E].
  - destruct (decide (m_array this = m_array other)) as [E'|E'].
    + exists s, s. repeat split;
        [by apply hpp_swap_same|by apply readme_swap_same].
    + destruct (hpp_swap_differ this other s) as (log & _ & Hop); try done.
      eexists. exists s. split; [exact Hop|].
      split; [by apply readme_swap_same|]. simpl.
      assert (list_inserts (m_array this) (contents s other) (cells s) = cells s)
        as -> by (rewrite <- E; by apply inserts_window_id).
      rewrite E. by apply inserts_window_id.
  - assert (m_array this ≠ m_array other) as E'.
    { intros E'. apply E. unfold contents. by rewrite E'. }
    destruct (hpp_swap_differ this other s) as (log & _ & Hop); try done.
    destruct (readme_swap_differ this other s) as (log' & _ & Hop'); try done.
    eexists. eexists. split; [exact Hop|]. split; [exact Hop'|]. done.
Qed.
End MoreMutation.

Section MoreAssignment.
Context {T : Type} `{!ValueType T} {N : nat}.
Implicit Types (s : state T) (this other : Array_Wrapper T N).

(** X10. Copy assignment between views changes no cell outside the N slots
    of the destination and does not change the size of the store. *)
Theorem copy_assignment_touches_only_destination this other s :
  valid s this → valid s other →
  contents s this = contents s other ∨
    ¬ (m_array other ≤ m_array this < m_array other + N) →
  ∃ s', Readme.op_assign this other s = Ok this s' ∧
        length (cells s') = length (cells s) ∧
        ∀ p, ¬ (m_array this ≤ p < m_array this + N) →
             cells s' !! p = cells s !! p.
Proof.
  intros H1 H2 Hd.
  destruct (decide (contents s this = contents s other)) as [E|E].
  - exists s. split; [by apply readme_op_assign_same|done].
  - destruct (readme_op_assign_differ this other s) as (log & _ & Hop);
      try done; [by destruct Hd|].
    eexists. split; [exact Hop|]. simpl.
    split; [by rewrite length_inserts|].
    intros p Hp. rewrite list_lookup_inserts_decide, contents_length by done.
    by rewrite decide_False by lia.
Qed.

(** X11. After a copy assignment from a view of storage that does not
    overlap the destination, the source holds what it held, the two views
    compare equal, and assigning again assigns no element. *)
Theorem copy_assignment_makes_equal this other s :
  valid s this → valid s other →
  m_array this + N ≤ m_array other ∨ m_array other + N ≤ m_array this →
  ∃ s', Readme.op_assign this other s = Ok this s' ∧
        contents s' other = contents s other ∧
        Readme.op_eq this other s' = Ok true s' ∧
        Readme.op_ne this other s' = Ok false s' ∧
        Readme.op_assign this other s' = Ok this s'.
Proof.
  intros H1 H2 Hd.
  assert (∃ s', Readme.op_assign this other s = Ok this s' ∧
                length (cells s') = length (cells s) ∧
                contents s' this = contents s other ∧
                contents s' other = contents s other) as (s' & Hop & Hlen & Ht & Ho).
  { destruct (decide (contents s this = contents s other)) as [E|E].
    - exists s. split; [by apply readme_op_assign_same|done].
    - destruct (readme_op_assign_differ this other s) as (log & _ & Hop);
        try done; [unfold valid in *; lia|].
      eexists. split; [exact Hop|]. simpl.
      split; [by rewrite length_inserts|]. split.
      + apply (contents_inserts_same _ _ _ _ s); [done| |done].
        by apply contents_length.
      + unfold contents at 1. simpl. apply window_inserts_outside.
        rewrite contents_length by done. lia. }
  assert (valid s' this) as H1' by (unfold valid in *; lia).
  assert (valid s' other) as H2' by (unfold valid in *; lia).
  exists s'. split; [done|]. split; [done|].
  rewrite readme_op_eq_spec, readme_op_ne_spec by done.
  rewrite bool_decide_eq_true_2 by congruence.
  repeat split. apply readme_op_assign_same; congruence.
Qed.

(** X12. Move assignment between views of storages that do not overlap
    leaves the source elements in their moved-from state, unless the two
    contents were equal: then nothing is moved and the source is as it
    was. *)
Theorem move_assignment_source this other s :
  valid s this → valid s other →
  m_array this + N ≤ m_array other ∨ m_array other + N ≤ m_array this →
  ∃ s', Readme.op_move_assign this other s = Ok this s' ∧
        contents s' this = contents s other ∧
        contents s' other =
          if decide (contents s this = contents s other) then contents s other
          else moved_from <$> contents s other.
Proof.
  intros H1 H2 Hd.
  assert (length (contents s other) = N) as Hlen by by apply contents_length.
  destruct (decide (contents s this = contents s other)) as [E|E].
  - exists s. split; [by apply readme_op_move_assign_same|done].
  - destruct (readme_op_move_assign_differ this other s) as (log & _ & Hop);
      try done; [unfold valid in *; lia|].
    eexists. split; [exact Hop|]. split.
    + apply (contents_inserts_same _ _ _ _ s); [done|done|].
      by rewrite length_inserts.
    + unfold contents at 1. simpl.
      rewrite window_inserts_outside by (rewrite Hlen; lia).
      apply window_inserts_same; [by rewrite length_fmap|done].
Qed.
End MoreAssignment.

(** ** Comparison operators together *)
Section MoreComparison.
Context {T : Type} `{ValueLaws T} {N : nat}.
Implicit Types (s : state T) (this other : Array_Wrapper T N).

Lemma lex_lt_irrefl (a : list T) : lex_lt a a = false.
Proof.
  induction a as [|x a IH]; simpl; [done|].
  by rewrite bool_decide_eq_true_2.
Qed.

Lemma lex_lt_asym (a : list T) : ∀ b, lex_lt a b = true → lex_lt b a = false.
Proof.
  induction a as [|x a IH]; intros [|y b]; simpl; try done.
  case_bool_decide as E.
  - subst y. rewrite bool_decide_eq_true_2 by done. apply IH.
  - rewrite bool_decide_eq_false_2 by congruence. apply value_lt_asym.
Qed.

Lemma lex_lt_total (a : list T) : ∀ b,
  length a = length b → lex_lt a b = false → lex_lt b a = false → a = b.
Proof.
  induction a as [|x a IH]; intros [|y b] Hlen; simpl in *; try done.
  case_bool_decide as E.
  - subst y. rewrite bool_decide_eq_true_2 by done.
    intros ??. f_equal. apply IH; [lia|done|done].
  - rewrite bool_decide_eq_false_2 by congruence.
    intros Hxy Hyx. destruct E. by apply value_lt_total.
Qed.

(** X13. For two views inside the store exactly one of [<], [==] and [>] of
    the README header holds, [a > b] is [b < a], and none of the three
    comparisons changes the store. *)
Theorem less_equal_greater_trichotomy this other s :
  valid s this → valid s other →
  ∃ lt eq gt : bool,
    Readme.op_lt this other s = Ok lt s ∧
    Readme.op_eq this other s = Ok eq s ∧
    Readme.op_gt this other s = Ok gt s ∧
    Readme.op_lt other this s = Ok gt s ∧
    ((lt = true ∧ eq = false ∧ gt = false) ∨
     (lt = false ∧ eq = true ∧ gt = false) ∨
     (lt = false ∧ eq = false ∧ gt = true)).
Proof.
  intros H1 H2.
  exists (lex_lt (contents s this) (contents s other)),
    (bool_decide (contents s this = contents s other)),
    (lex_lt (contents s other) (contents s this)).
  split; [by apply readme_op_lt_spec|].
  split; [by apply readme_op_eq_spec|].
  split; [by apply readme_op_gt_spec|].
  split; [by apply readme_op_lt_spec|].
  destruct (lex_lt (contents s this) (contents s other)) eqn:Hlt.
  - left. split; [done|]. split; [|by apply lex_lt_asym].
    apply bool_decide_eq_false_2. intros E. rewrite E, lex_lt_irrefl in Hlt. done.
  - destruct (lex_lt (contents s other) (contents s this)) eqn:Hgt.
    + right. right. split; [done|]. split; [|done].
      apply bool_decide_eq_false_2. intros E. rewrite E, lex_lt_irrefl in Hlt.
      rewrite E, lex_lt_irrefl in Hgt. done.
    + right. left. split; [done|]. split; [|done].
      apply bool_decide_eq_true_2. apply lex_lt_total; [|done|done].
      by rewrite !contents_length.
Qed.
End MoreComparison.

Section MoreEquality.
Context {T : Type} `{!ValueType T} {N : nat}.
Implicit Types (s : state T) (this other third : Array_Wrapper T N).

(** X14. On views inside the store [operator==] of the README header is
    reflexive, symmetric and transitive, and [operator!=] answers the
    opposite; neither changes the store. *)
Theorem readme_equality_is_equivalence this other third s :
  valid s this → valid s other → valid s third →
  Readme.op_eq this this s = Ok true s ∧
  Readme.op_eq this other s = Readme.op_eq other this s ∧
  (Readme.op_eq this other s = Ok true s → Readme.op_eq other third s = Ok true s →
   Readme.op_eq this third s = Ok true s) ∧
  ∃ e, Readme.op_eq this other s = Ok e s ∧ Readme.op_ne this other s = Ok (negb e) s.
Proof.
  intros H1 H2 H3.
  rewrite !readme_op_eq_spec, readme_op_ne_spec by done.
  split; [by rewrite bool_decide_eq_true_2|].
  split; [f_equal; apply bool_decide_ext; split; congruence|].
  split; [|by eexists].
  intros [= E1] [= E2]. apply bool_decide_eq_true in E1, E2.
  rewrite bool_decide_eq_true_2; congruence.
Qed.

(** X15. [size()] and [max_size()] are the distance from [begin()] to
    [end()] and the number of references a loop over that range visits, in
    both versions; [empty()] of the README header tells whether that number
    is zero. *)
Theorem size_is_traversal_length this (fuel : nat) :
  N < fuel →
  ∃ refs,
    Std.for_each fuel (Hpp.begin this) (Hpp.end_ this) = Some refs ∧
    Std.for_each fuel (Readme.begin this) (Readme.end_ this) = Some refs ∧
    length refs = Hpp.size this ∧ length refs = Readme.size this ∧
    Hpp.max_size this = Hpp.size this ∧ Readme.max_size this = Readme.size this ∧
    Hpp.end_ this - Hpp.begin this = Hpp.size this ∧
    Readme.end_ this - Readme.begin this = Readme.size this ∧
    Readme.empty this = bool_decide (length refs = 0).
Proof.
  intros Hfuel. exists (seq (m_array this) N).
  split; [by apply for_each_spec|]. split; [by apply for_each_spec|].
  rewrite length_seq.
  unfold Hpp.size, Readme.size, Hpp.max_size, Readme.max_size, Hpp.end_,
    Readme.end_, Hpp.begin, Readme.begin, Readme.empty.
  repeat split; try lia.
  destruct N; done.
Qed.
End MoreEquality.

Section SwapSymmetry.
Context {T : Type} `{!ValueType T} {N : nat}.
Implicit Types (s : state T) (this other : Array_Wrapper T N).

Lemma inserts_disjoint_commute (l k1 k2 : list T) a b :
  a + length k1 ≤ b ∨ b + length k2 ≤ a →
  list_inserts b k2 (list_inserts a k1 l) = list_inserts a k1 (list_inserts b k2 l).
Proof.
  intros Hd. apply list_eq. intros p.
  rewrite !list_lookup_inserts_decide, !length_inserts.
  repeat case_decide; try done; lia.
Qed.

(** X16. Over storages that do not overlap, [a.swap(b)] and [b.swap(a)]
    leave the same cells, in both versions. *)
Theorem swap_is_symmetric this other s :
  valid s this → valid s other →
  m_array this + N ≤ m_array other ∨ m_array other + N ≤ m_array this →
  (∃ s1 s2, Hpp.swap this other s = Ok (this, other) s1 ∧
            Hpp.swap other this s = Ok (other, this) s2 ∧
            cells s1 = cells s2) ∧
  (∃ s1 s2, Readme.swap this other s = Ok (this, other) s1 ∧
            Readme.swap other this s = Ok (other, this) s2 ∧
            cells s1 = cells s2).
Proof.
  intros H1 H2 Hd.
  assert (list_inserts (m_array other) (contents s this)
            (list_inserts (m_array this) (contents s other) (cells s)) =
          list_inserts (m_array this) (contents s other)
            (list_inserts (m_array other) (contents s this) (cells s))) as Hcomm.
  { apply inserts_disjoint_commute. rewrite !contents_length by done. lia. }
  split.
  - destruct (decide (m_array this = m_array other)) as [E|E].
    + exists s, s. repeat split; by apply hpp_swap_same.
    + destruct (hpp_swap_differ this other s) as (log & _ & Hop); try done.
      destruct (hpp_swap_differ other this s) as (log' & _ & Hop');
        try done; [lia|].
      eexists. eexists. split; [exact Hop|]. split; [exact Hop'|]. done.
  - destruct (decide (contents s this = contents s other)) as [E|E].
    + exists s, s. repeat split; by apply readme_swap_same.
    + destruct (readme_swap_differ this other s) as (log & _ & Hop); try done.
      destruct (readme_swap_differ other this s) as (log' & _ & Hop');
        try done; [lia|].
      eexists. eexists. split; [exact Hop|]. split; [exact Hop'|]. done.
Qed.
End SwapSymmetry.

(** ** The further properties on the README's arrays *)

Lemma arr_view_valid : valid arr (view 5 0).
Proof. unfold valid. simpl. lia. Defined.

Lemma asc_desc_views_valid : valid asc_desc (view 3 0) ∧ valid asc_desc (view 3 3).
Proof. unfold valid. simpl. lia. Defined.

Lemma checked_read_is_defined_witness :
  valid arr (view 5 0) ∧
  (Hpp.at_ (view 5 0) 2 ≫= load) arr = Ok 5%Z arr ∧
  (Readme.at_ (view 5 0) 5 ≫= load) arr = Throw (out_of_range "Out of range: 5") arr.
Proof.
  split; [exact arr_view_valid|]. split.
  - exact (proj1 (checked_read_is_defined (view 5 0) 2 arr arr_view_valid)).
  - exact (proj2 (checked_read_is_defined (view 5 0) 5 arr arr_view_valid)).
Defined.

Lemma checked_reference_is_in_bounds_witness :
  Hpp.at_ (view 5 0) 2 arr = Ok 2 arr ∧ 0 ≤ 2 < 0 + 5.
Proof.
  split; [reflexivity|].
  exact (proj1 (checked_reference_is_in_bounds (view 5 0) 2 arr 2 arr
                  (or_introl eq_refl))).
Defined.

Lemma range_errors_differ_witness :
  5 ≤ 5 ∧ 5 ≠ 6 ∧ Hpp.at_ (view 5 0) 5 arr ≠ Hpp.at_ (view 5 0) 6 arr.
Proof.
  assert (5 ≤ 5) as H1 by lia. assert (5 ≠ 6) as H2 by lia.
  split; [exact H1|]. split; [exact H2|].
  exact (proj1 (range_errors_differ (view 5 0) 5 6 arr H1 H2)).
Defined.

Lemma front_back_are_first_and_last_witness :
  0 < 5 ∧ valid arr (view 5 0) ∧
  Hpp.at_ (view 5 0) 4 arr = Ok (Hpp.back (view 5 0)) arr.
Proof.
  assert (0 < 5) as H1 by lia.
  split; [exact H1|]. split; [exact arr_view_valid|].
  exact (proj1 (proj2 (front_back_are_first_and_last (view 5 0) arr H1 arr_view_valid))).
Defined.

Lemma views_alias_the_array_witness :
  ∃ s', store 2 0%Z arr = Ok () s' ∧ contents s' (view 5 0) = [1; 3; 0; 7; 9]%Z.
Proof.
  destruct (views_alias_the_array (N:=5) 0 2 2 0%Z arr (Nat.lt_0_succ 4)
              arr_view_valid ltac:(lia) ltac:(lia))
    as (_ & _ & _ & _ & _ & s' & Hst & Hc & _).
  exists s'. split; [exact Hst|]. exact (eq_trans Hc eq_refl).
Defined.

Lemma fill_touches_only_its_slots_witness :
  valid twins (view 3 0) ∧
  ∃ s', Hpp.fill (view 3 0) 0%Z twins = Ok (view 3 0) s' ∧
        cells s' !! 1 = Some 0%Z ∧ cells s' !! 4 = Some 2%Z.
Proof.
  assert (valid twins (view 3 0)) as H1 by (unfold valid; simpl; lia).
  split; [exact H1|].
  destruct (fill_touches_only_its_slots (view 3 0) 0%Z twins H1)
    as (s' & Hop & _ & _ & Hcells).
  exists s'. split; [exact Hop|].
  split; rewrite Hcells; reflexivity.
Defined.

Lemma swap_with_array_exchanges_contents_witness :
  valid asc_desc (view 3 0) ∧ valid_array asc_desc (make_array (N:=3) 3) ∧
  ∃ s', Hpp.swap_array (view 3 0) (make_array 3) asc_desc =
          Ok (view 3 0, make_array 3) s' ∧
        contents s' (view 3 0) = [3; 2; 1]%Z ∧
        array_contents s' (make_array (N:=3) 3) = [1; 2; 3]%Z.
Proof.
  assert (valid_array asc_desc (make_array (N:=3) 3)) as H2
    by (unfold valid_array; simpl; lia).
  split; [exact (proj1 asc_desc_views_valid)|]. split; [exact H2|].
  destruct (swap_with_array_exchanges_contents (view 3 0) (make_array 3) asc_desc
              (proj1 asc_desc_views_valid) H2)
    as (s' & Hop & _ & Hc & Ha & _).
  - right. left. simpl. lia.
  - exists s'. split; [exact Hop|]. rewrite Hc, Ha. split; reflexivity.
Defined.

Lemma swap_twice_restores_witness :
  ∃ s1 s2, Readme.swap (view 3 0) (view 3 3) asc_desc = Ok (view 3 0, view 3 3) s1 ∧
           Readme.swap (view 3 0) (view 3 3) s1 = Ok (view 3 0, view 3 3) s2 ∧
           cells s2 = cells asc_desc.
Proof.
  exact (proj2 (swap_twice_restores (view 3 0) (view 3 3) asc_desc
                  (proj1 asc_desc_views_valid) (proj2 asc_desc_views_valid)
                  (or_introl (le_n 3)))).
Defined.

Lemma swap_versions_agree_witness :
  ∃ s1 s2, Hpp.swap (view 3 0) (view 3 3) twins = Ok (view 3 0, view 3 3) s1 ∧
           Readme.swap (view 3 0) (view 3 3) twins = Ok (view 3 0, view 3 3) s2 ∧
           cells s1 = cells s2.
Proof.
  assert (valid twins (view 3 0)) as H1 by (unfold valid; simpl; lia).
  assert (valid twins (view 3 3)) as H2 by (unfold valid; simpl; lia).
  exact (swap_versions_agree (view 3 0) (view 3 3) twins H1 H2 (or_introl (le_n 3))).
Defined.

Lemma swap_is_symmetric_witness :
  ∃ s1 s2, Hpp.swap (view 3 0) (view 3 3) asc_desc = Ok (view 3 0, view 3 3) s1 ∧
           Hpp.swap (view 3 3) (view 3 0) asc_desc = Ok (view 3 3, view 3 0) s2 ∧
           cells s1 = cells s2.
Proof.
  exact (proj1 (swap_is_symmetric (view 3 0) (view 3 3) asc_desc
                  (proj1 asc_desc_views_valid) (proj2 asc_desc_views_valid)
                  (or_introl (le_n 3)))).
Defined.

Lemma copy_assignment_touches_only_destination_witness :
  ∃ s', Readme.op_assign (view 3 0) (view 3 3) asc_desc = Ok (view 3 0) s' ∧
        cells s' !! 4 = Some 2%Z.
Proof.
  destruct (copy_assignment_touches_only_destination (view 3 0) (view 3 3) asc_desc
              (proj1 asc_desc_views_valid) (proj2 asc_desc_views_valid))
    as (s' & Hop & _ & Hframe).
  - right. simpl. lia.
  - exists s'. split; [exact Hop|]. rewrite Hframe; [reflexivity|simpl; lia].
Defined.

Lemma copy_assignment_makes_equal_witness :
  ∃ s', Readme.op_assign (view 3 0) (view 3 3) asc_desc = Ok (view 3 0) s' ∧
        contents s' (view 3 3) = [3; 2; 1]%Z ∧
        Readme.op_eq (view 3 0) (view 3 3) s' = Ok true s'.
Proof.
  destruct (copy_assignment_makes_equal (view 3 0) (view 3 3) asc_desc
              (proj1 asc_desc_views_valid) (proj2 asc_desc_views_valid)
              (or_introl (le_n 3)))
    as (s' & Hop & Hsrc & Heq & _).
  exists s'. split; [exact Hop|]. split; [rewrite Hsrc; reflexivity|exact Heq].
Defined.

Lemma move_assignment_source_witness :
  ∃ s', Readme.op_move_assign (view 3 0) (view 3 3) asc_desc = Ok (view 3 0) s' ∧
        contents s' (view 3 0) = [3; 2; 1]%Z ∧
        contents s' (view 3 3) = [3; 2; 1]%Z.
Proof.
  destruct (move_assignment_source (view 3 0) (view 3 3) asc_desc
              (proj1 asc_desc_views_valid) (proj2 asc_desc_views_valid)
              (or_introl (le_n 3)))
    as (s' & Hop & Hdst & Hsrc).
  exists s'. split; [exact Hop|].
  split; [rewrite Hdst; reflexivity|rewrite Hsrc; reflexivity].
Defined.

Lemma less_equal_greater_trichotomy_witness :
  Readme.op_lt (view 3 0) (view 3 3) asc_desc = Ok true asc_desc ∧
  ∃ lt eq gt : bool,
    Readme.op_lt (view 3 0) (view 3 3) asc_desc = Ok lt asc_desc ∧
    Readme.op_eq (view 3 0) (view 3 3) asc_desc = Ok eq asc_desc ∧
    Readme.op_gt (view 3 0) (view 3 3) asc_desc = Ok gt asc_desc ∧
    Readme.op_lt (view 3 3) (view 3 0) asc_desc = Ok gt asc_desc ∧
    ((lt = true ∧ eq = false ∧ gt = false) ∨
     (lt = false ∧ eq = true ∧ gt = false) ∨
     (lt = false ∧ eq = false ∧ gt = true)).
Proof.
  split; [reflexivity|].
  exact (less_equal_greater_trichotomy (view 3 0) (view 3 3) asc_desc
           (proj1 asc_desc_views_valid) (proj2 asc_desc_views_valid)).
Defined.

Lemma readme_equality_is_equivalence_witness :
  Readme.op_eq (view 3 0) (view 3 0) asc_desc = Ok true asc_desc ∧
  Readme.op_eq (view 3 0) (view 3 3) asc_desc =
    Readme.op_eq (view 3 3) (view 3 0) asc_desc.
Proof.
  destruct (readme_equality_is_equivalence (view 3 0) (view 3 3) (view 3 0) asc_desc
              (proj1 asc_desc_views_valid) (proj2 asc_desc_views_valid)
              (proj1 asc_desc_views_valid))
    as (Hrefl & Hsym & _).
  split; [exact Hrefl|exact Hsym].
Defined.

Lemma size_is_traversal_length_witness :
  5 < 6 ∧
  ∃ refs,
    Std.for_each 6 (Hpp.begin (view 5 0)) (Hpp.end_ (view 5 0)) = Some refs ∧
    length refs = Hpp.size (view 5 0).
Proof.
  assert (5 < 6) as H1 by lia.
  split; [exact H1|].
  destruct (size_is_traversal_length (T:=Z) (view 5 0) 6 H1)
    as (refs & Hf & _ & Hlen & _).
  exists refs. split; [exact Hf|exact Hlen].
Defined.
